(** * jigo: template AST, lexer cursor and context stack

    A shallow embedding of [ast.go] (package v1) and [lex.go] (package jigo),
    together with the layered variable context exercised by the context
    tests.  Go strings are byte sequences and are modelled by [string];
    Go [int] values that only ever hold offsets into a string are modelled
    by [Z]. *)

From Stdlib Require Import ZArith String Ascii List Lia Bool.
From stdpp Require Import base option list gmap strings pretty.

(** ** Outcomes of Go code

    A Go call either returns or panics. *)

Inductive result (A : Type) : Type :=
| Ok (a : A)
| Panic.
Arguments Ok {A} a.
Arguments Panic {A}.

(** A panic propagates through sequential composition; [x ← r; k] is
    stdpp's notation for it. *)
#[global] Instance result_bind : MBind result := fun A B k r =>
  match r with
  | Ok a => k a
  | Panic => Panic
  end.

#[global] Instance result_ret : MRet result := fun A a => Ok a.

(** ** Token model (lex.go) *)

Definition Pos := Z.

(** Token kinds, in the order of the [iota] block of lex.go. *)
Inductive itemType : Type :=
| tokenAdd | tokenAssign | tokenColon | tokenComma | tokenDiv | tokenDot
| tokenEq | tokenFloordiv | tokenGt | tokenGteq | tokenLbrace | tokenLbracket
| tokenLparen | tokenLt | tokenLteq | tokenMod | tokenMul | tokenNe
| tokenPipe | tokenPow | tokenRbrace | tokenRbracket | tokenRparen
| tokenSemicolon | tokenSub | tokenTilde | tokenWhitespace | tokenFloat
| tokenInteger | tokenName | tokenString | tokenOperator | tokenBlockBegin
| tokenBlockEnd | tokenVariableBegin | tokenVariableEnd | tokenRawBegin
| tokenRawEnd | tokenCommentBegin | tokenCommentEnd | tokenComment
| tokenLinestatementBegin | tokenLinestatementEnd | tokenLinecommentBegin
| tokenLinecommentEnd | tokenLinecomment | tokenText | tokenInitial
| tokenEOF | tokenError
(** Modelled from the spec: the boolean literal kind that [newLiteral]
    switches on; its declaration is not part of the token list above. *)
| tokenBool.

#[global] Instance itemType_eq_dec : EqDecision itemType.
Proof. solve_decision. Defined.

(** [item] is a token returned from the scanner. *)
Record item : Type := mkItem {
  typ : itemType;
  pos : Pos;
  val : string
}.

#[global] Instance item_eq_dec : EqDecision item.
Proof. solve_decision. Defined.

(** ** strconv

    [ParseInt(s, 10, 64)] as the library computes it; a result is the pair
    of the value and the error returned, [None] for a nil error. *)

Module strconv.
Local Open Scope Z_scope.

Inductive NumError : Type := ErrSyntax | ErrRange.

(** Value of a decimal digit byte.  Letters stand for digits of ten and
    more, which base 10 rejects like any other byte. *)
Definition digit (c : ascii) : option Z :=
  let n := Z.of_N (N_of_ascii c) in
  if (48 <=? n)%Z && (n <=? 57)%Z then Some (n - 48)%Z else None.

Definition maxUint64 : Z := (2 ^ 64 - 1)%Z.

(** The loop of [ParseUint] over the bytes of [s], for base 10 and 64
    bits: [n] is the number read so far.  [cutoff] is the smallest number
    whose product with the base overflows, and the sum [n1] overflows when
    it wraps around below [n]. *)
Fixpoint ParseUint_loop (s : string) (n : Z) : Z * option NumError :=
  match s with
  | EmptyString => (n, None)
  | String c s' =>
      match digit c with
      | None => (0, Some ErrSyntax)
      | Some d =>
          let cutoff := (maxUint64 / 10 + 1)%Z in
          if (cutoff <=? n)%Z then (maxUint64, Some ErrRange)
          else
            let n := (n * 10)%Z in
            let n1 := ((n + d) mod 2 ^ 64)%Z in
            if (n1 <? n)%Z || (maxUint64 <? n1)%Z
            then (maxUint64, Some ErrRange)
            else ParseUint_loop s' n1
      end
  end.

(** [ParseUint(s, 10, 64)] *)
Definition ParseUint (s : string) : Z * option NumError :=
  match s with
  | EmptyString => (0, Some ErrSyntax)
  | _ => ParseUint_loop s 0
  end.

(** [ParseInt(s, 10, 64)]: picks off a leading sign, converts the rest as
    unsigned, and checks the range against the cutoff 2^63. *)
Definition ParseInt (s : string) : Z * option NumError :=
  match s with
  | EmptyString => (0, Some ErrSyntax)
  | String c s' =>
      let neg := Ascii.eqb c "-" in
      let s1 := if Ascii.eqb c "+" then s' else if neg then s' else s in
      let '(un, err) := ParseUint s1 in
      match err with
      | Some ErrSyntax => (0, err)
      | _ =>
          let cutoff := (2 ^ 63)%Z in
          if negb neg && (cutoff <=? un)%Z then
            ((cutoff - 1)%Z, Some ErrRange)
          else if neg && (cutoff <? un)%Z then
            ((- cutoff)%Z, Some ErrRange)
          else
            ((if neg then - un else un)%Z, None)
      end
  end.

(** [FormatInt(i, 10)]: the decimal digits of [i], after a minus sign when
    it is negative; [pretty] of stdpp writes just that. *)
Definition FormatInt (i : Z) : string := pretty i.

End strconv.

(** [float64] values are only parsed, stored and printed by this code, so
    the type and the two library functions that touch it are kept
    abstract: [ParseFloat s] is [Some v] when [strconv.ParseFloat(s, 64)]
    returns [v] and a nil error, and [None] when it returns an error;
    [Sprint_float64 f] is [fmt.Sprint(f)]. *)
Class GoFloat : Type := {
  float64 : Type;
  ParseFloat : string -> option float64;
  Sprint_float64 : float64 -> string
}.

(** ** AST nodes (ast.go) *)

Inductive NodeType : Type :=
| NodeList | NodeText | NodeVar | NodeLookup | NodeUnary | NodeFloat
| NodeInteger | NodeString | NodeBool | NodeAdd | NodeMul | NodeMapExpr
| NodeMapElem | NodeIndexExpr | NodeSet | NodeIf | NodeElseIf | NodeFor.

#[global] Instance NodeType_eq_dec : EqDecision NodeType.
Proof. solve_decision. Defined.

Module Ast.
Section WithFloat.
Context `{GoFloat}.

(** A value of interface type [Node] is nil ([None]) or a pointer to one
    of the node structs; [Elems] of a [MapExpr] holds pointers of the
    static type [*MapElem], each of which may be nil as well.  (A nil
    pointer of a struct type stored in a [Node] field is not modelled.)
    This is the tree a node denotes; the heap underneath it is [Store]
    below. *)
#[warnings="-register-all"]
Inductive Node : Type :=
| ListNode (t : NodeType) (p : Pos) (Nodes : list (option Node))
| TextNode (t : NodeType) (p : Pos) (Text : string)
| VarNode (t : NodeType) (p : Pos) (Node_ : option Node)
| LookupNode (t : NodeType) (p : Pos) (Name : string)
| StringNode (t : NodeType) (p : Pos) (Value : string)
| BoolNode (t : NodeType) (p : Pos) (Value : bool)
| IntegerNode (t : NodeType) (p : Pos) (Value : Z)
| FloatNode (t : NodeType) (p : Pos) (Value : float64)
| UnaryNode (t : NodeType) (p : Pos) (Value : option Node) (Unary : item)
| AddExpr (t : NodeType) (p : Pos) (lhs rhs : option Node) (operator : item)
| MulExpr (t : NodeType) (p : Pos) (lhs rhs : option Node) (operator : item)
| MapExpr (t : NodeType) (p : Pos) (Elems : list (option MapElem))
| MapElemNode (m : MapElem)
| IndexExpr (t : NodeType) (p : Pos) (Value Index : option Node)
| SetNode (t : NodeType) (p : Pos) (lhs rhs : option Node)
| ConditionalNode (t : NodeType) (p : Pos) (Guard Body : option Node)
| IfBlockNode (t : NodeType) (p : Pos) (Conditionals : list (option Node))
    (Else : option Node)
| ForNode (t : NodeType) (p : Pos) (ForExpr InExpr Body : option Node)
| BlockNode (t : NodeType) (p : Pos) (Name : string) (Body : option Node)
with MapElem : Type :=
| mkMapElem (t : NodeType) (p : Pos) (Key Value : option Node).

(** [Position()] is promoted from the embedded [Pos] field. *)
Definition MapElem_Position (m : MapElem) : Pos :=
  match m with mkMapElem _ p _ _ => p end.

Definition Position (n : Node) : Pos :=
  match n with
  | ListNode _ p _ | TextNode _ p _ | VarNode _ p _ | LookupNode _ p _
  | StringNode _ p _ | BoolNode _ p _ | IntegerNode _ p _
  | FloatNode _ p _ | UnaryNode _ p _ _ | AddExpr _ p _ _ _
  | MulExpr _ p _ _ _ | MapExpr _ p _ | IndexExpr _ p _ _
  | SetNode _ p _ _ | ConditionalNode _ p _ _ | IfBlockNode _ p _ _
  | ForNode _ p _ _ _ | BlockNode _ p _ _ => p
  | MapElemNode m => MapElem_Position m
  end.

(** Calling a method on a nil interface value panics. *)
Definition Position_of (n : option Node) : result Pos :=
  match n with
  | Some n => Ok (Position n)
  | None => Panic
  end.

(** *** fmt

    What [fmt] writes for an operand of type [Node] or [*MapElem].  A nil
    interface prints as [<nil>] under [%v] (and [Fprint]) and as a bad
    verb under [%s]; otherwise the operand's [String] method is called,
    and a panic inside it is recovered and reported in the output.  The
    only panic a [String] method of this package can raise is a nil
    dereference. *)
Inductive verb : Type := verb_v | verb_s.

Definition verb_char (c : verb) : string :=
  match c with verb_v => "v" | verb_s => "s" end.

Definition nilAngleString : string := "<nil>".

Definition badVerb_nil (c : verb) : string :=
  "%!" +:+ verb_char c +:+ "(" +:+ nilAngleString +:+ ")".

Definition catchPanic (c : verb) : string :=
  "%!" +:+ verb_char c +:+ "(PANIC=String method: "
  +:+ "runtime error: invalid memory address or nil pointer dereference"
  +:+ ")".

Definition printArg (String_ : Node -> result string) (c : verb)
    (arg : option Node) : string :=
  match arg with
  | None =>
      match c with
      | verb_v => nilAngleString
      | verb_s => badVerb_nil c
      end
  | Some n =>
      match String_ n with
      | Ok s => s
      | Panic => catchPanic c
      end
  end.

(** A nil [*MapElem] is a non-nil interface value whose [String] method
    panics on the nil receiver; [fmt] prints [<nil>] for it. *)
Definition printElem (String_ : MapElem -> result string)
    (arg : option MapElem) : string :=
  match arg with
  | None => nilAngleString
  | Some m =>
      match String_ m with
      | Ok s => s
      | Panic => catchPanic verb_v
      end
  end.

(** The loop of [MapExpr.String]: [b] is the buffer, [i] the index. *)
Fixpoint writeElems (pr : option MapElem -> string) (len : Z) (i : Z)
    (elems : list (option MapElem)) (b : string) : string :=
  match elems with
  | [] => b
  | n :: rest =>
      let b := b +:+ pr n in
      let b := if decide (i ≠ len - 1)%Z then b +:+ ", " else b in
      writeElems pr len (i + 1)%Z rest b
  end.

Definition dquote : string := String (ascii_of_nat 34) EmptyString.

(** *** String

    [TextNode.String] formats with the package variable [textFormat],
    whose value in ast.go is [%s]: the text bytes are written as they
    are. *)
Fixpoint Node_String (n : Node) : result string :=
  match n with
  | ListNode _ _ Nodes =>
      Ok (fold_left (fun b n => b +:+ printArg Node_String verb_v n) Nodes "")
  | TextNode _ _ Text => Ok Text
  | VarNode _ _ Node_ =>
      match Node_ with
      | None => Panic
      | Some n' =>
          match Node_String n' with
          | Ok s => Ok ("{{ " +:+ s +:+ " }}")
          | Panic => Panic
          end
      end
  | LookupNode _ _ Name => Ok Name
  | StringNode _ _ Value => Ok (dquote +:+ Value +:+ dquote)
  | BoolNode _ _ Value => Ok (if Value then "true" else "false")
  | IntegerNode _ _ Value => Ok (strconv.FormatInt Value)
  | FloatNode _ _ Value => Ok (Sprint_float64 Value)
  | UnaryNode _ _ Value Unary =>
      Ok (val Unary +:+ printArg Node_String verb_s Value)
  | AddExpr _ _ lhs rhs operator
  | MulExpr _ _ lhs rhs operator =>
      Ok (printArg Node_String verb_s lhs +:+ " " +:+ val operator +:+ " "
          +:+ printArg Node_String verb_s rhs)
  | MapExpr _ _ Elems =>
      Ok (writeElems (printElem MapElem_String) (Z.of_nat (length Elems)) 0
            Elems "{" +:+ "}")
  | MapElemNode m => MapElem_String m
  | IndexExpr _ _ Value Index =>
      Ok (printArg Node_String verb_s Value +:+ "["
          +:+ printArg Node_String verb_s Index +:+ "]")
  | SetNode _ _ lhs rhs =>
      Ok ("{% set " +:+ printArg Node_String verb_s lhs +:+ " = "
          +:+ printArg Node_String verb_s rhs +:+ " %}")
  | ConditionalNode t _ Guard Body =>
      let b :=
        match t with
        | NodeIf => "{% if " +:+ printArg Node_String verb_s Guard +:+ " %}"
        | NodeElseIf =>
            "{% elif " +:+ printArg Node_String verb_s Guard +:+ " %}"
        | _ => ""
        end in
      Ok (b +:+ printArg Node_String verb_v Body)
  | IfBlockNode _ _ Conditionals Else =>
      let b :=
        fold_left (fun b c => b +:+ printArg Node_String verb_v c)
          Conditionals "" in
      let b :=
        match Else with
        | Some _ => b +:+ "{% else %}" +:+ printArg Node_String verb_s Else
        | None => b
        end in
      Ok (b +:+ "{% endif %}")
  | ForNode _ _ ForExpr InExpr Body =>
      Ok ("{% for " +:+ printArg Node_String verb_s ForExpr +:+ " in "
          +:+ printArg Node_String verb_s InExpr +:+ " %}"
          +:+ printArg Node_String verb_s Body +:+ "{% endfor %}")
  | BlockNode _ _ Name Body =>
      Ok ("{% block " +:+ Name +:+ " %}" +:+ printArg Node_String verb_v Body
          +:+ "{% endblock %}")
  end
with MapElem_String (m : MapElem) : result string :=
  match m with
  | mkMapElem _ _ Key Value =>
      Ok (printArg Node_String verb_s Key +:+ ": "
          +:+ printArg Node_String verb_s Value)
  end.

(** *** Copy *)

(** A method call [x.Copy()] on an interface value or pointer [x]. *)
Definition callCopy {A B : Type} (copy : A -> result B) (x : option A)
    : result B :=
  match x with
  | Some a => copy a
  | None => Panic
  end.

Section AppendCopies.
Context {A : Type} (copy : A -> result A).

(** [for _, elem := range elems { acc = append(acc, elem.Copy()) }] *)
Fixpoint appendCopies (elems : list (option A)) (acc : list (option A))
    : result (list (option A)) :=
  match elems with
  | [] => Ok acc
  | elem :: rest =>
      match callCopy copy elem with
      | Ok c => appendCopies rest (acc ++ [Some c])
      | Panic => Panic
      end
  end.
End AppendCopies.

(** [MapElem.Copy] goes through [newMapElem], which reads the position
    of the key. *)
Definition MapElem_Copy (m : MapElem) : result MapElem :=
  match m with
  | mkMapElem _ _ Key Value =>
      p ← Position_of Key;
      Ok (mkMapElem NodeMapElem p Key Value)
  end.

Fixpoint Copy (n : Node) : result Node :=
  match n with
  | ListNode _ p Nodes =>
      nodes ← appendCopies Copy Nodes [];
      Ok (ListNode NodeList p nodes)
  | TextNode _ p Text => Ok (TextNode NodeText p Text)
  | VarNode t p Node_ => Ok (VarNode t p Node_)
  | LookupNode _ p Name => Ok (LookupNode NodeLookup p Name)
  | StringNode t p Value => Ok (StringNode t p Value)
  | BoolNode t p Value => Ok (BoolNode t p Value)
  | IntegerNode t p Value => Ok (IntegerNode t p Value)
  | FloatNode t p Value => Ok (FloatNode t p Value)
  | UnaryNode t p Value Unary => Ok (UnaryNode t p Value Unary)
  | AddExpr _ _ lhs rhs operator =>
      p ← Position_of lhs;
      Ok (AddExpr NodeAdd p lhs rhs operator)
  | MulExpr _ _ lhs rhs operator =>
      p ← Position_of lhs;
      Ok (MulExpr NodeMul p lhs rhs operator)
  | MapExpr _ p Elems =>
      elems ← appendCopies MapElem_Copy Elems [];
      Ok (MapExpr NodeMapExpr p elems)
  | MapElemNode m =>
      m' ← MapElem_Copy m;
      Ok (MapElemNode m')
  | IndexExpr _ _ Value Index =>
      p ← Position_of Value;
      Ok (IndexExpr NodeIndexExpr p Value Index)
  | SetNode _ p lhs rhs =>
      lhs' ← callCopy Copy lhs;
      rhs' ← callCopy Copy rhs;
      Ok (SetNode NodeSet p (Some lhs') (Some rhs'))
  | ConditionalNode t p Guard Body =>
      guard ← callCopy Copy Guard;
      body ← callCopy Copy Body;
      Ok (ConditionalNode t p (Some guard) (Some body))
  | IfBlockNode _ p Conditionals Else =>
      conds ← appendCopies Copy Conditionals
                (replicate (length Conditionals) None);
      else_ ← match Else with
              | Some e => e' ← Copy e; Ok (Some e')
              | None => Ok None
              end;
      Ok (IfBlockNode NodeIf p conds else_)
  | ForNode _ p ForExpr InExpr Body =>
      forExpr ← callCopy Copy ForExpr;
      inExpr ← callCopy Copy InExpr;
      body ← callCopy Copy Body;
      Ok (ForNode NodeFor p (Some forExpr) (Some inExpr) (Some body))
  | BlockNode t p Name Body =>
      body ← callCopy Copy Body;
      Ok (BlockNode t p Name (Some body))
  end.

(** *** Literals *)

(** [newLiteral] creates a string, integer, float or bool node depending
    on the token kind, and panics on any other kind. *)
Definition newLiteral (pos : Pos) (typ : itemType) (val : string)
    : result Node :=
  match typ with
  | tokenFloat =>
      match ParseFloat val with
      | None => Panic
      | Some v => Ok (FloatNode NodeFloat pos v)
      end
  | tokenInteger =>
      match strconv.ParseInt val with
      | (_, Some err) => Panic
      | (v, None) => Ok (IntegerNode NodeInteger pos v)
      end
  | tokenString => Ok (StringNode NodeString pos val)
  | tokenBool =>
      let v := if decide (val = "true") then true else false in
      Ok (BoolNode NodeBool pos v)
  | _ => Panic
  end.

(** *** Kinds, constructors and slices of nodes *)

(** [Type()] is promoted from the embedded [NodeType] field. *)
Definition MapElem_Type (m : MapElem) : NodeType :=
  match m with mkMapElem t _ _ _ => t end.

Definition Type_ (n : Node) : NodeType :=
  match n with
  | ListNode t _ _ | TextNode t _ _ | VarNode t _ _ | LookupNode t _ _
  | StringNode t _ _ | BoolNode t _ _ | IntegerNode t _ _
  | FloatNode t _ _ | UnaryNode t _ _ _ | AddExpr t _ _ _ _
  | MulExpr t _ _ _ _ | MapExpr t _ _ | IndexExpr t _ _ _
  | SetNode t _ _ _ | ConditionalNode t _ _ _ | IfBlockNode t _ _ _
  | ForNode t _ _ _ _ | BlockNode t _ _ _ => t
  | MapElemNode m => MapElem_Type m
  end.

(** The constructors.  Fields left out of a struct literal hold their
    zero value: nil for a node and for a slice. *)
Definition newList (pos : Pos) : Node := ListNode NodeList pos [].







Definition newMapExpr (pos : Pos) : Node := MapExpr NodeMapExpr pos [].



Definition newSet (pos : Pos) (lhs rhs : option Node) : Node :=
  SetNode NodeSet pos lhs rhs.

Definition newConditional (pos : Pos) (typ : NodeType) : Node :=
  ConditionalNode typ pos None None.

Definition newIfCond (pos : Pos) : Node := newConditional pos NodeIf.

Definition newElifCond (pos : Pos) : Node := newConditional pos NodeElseIf.


Definition newFor (pos : Pos) : Node := ForNode NodeFor pos None None None.

(** [ListNode.append] and [ListNode.len]; the receiver is a list node. *)
Definition ListNode_append (n : option Node) (l : Node) : Node :=
  match l with
  | ListNode t p Nodes => ListNode t p (Nodes ++ [n])
  | _ => l
  end.

Definition ListNode_len (l : Node) : Z :=
  match l with
  | ListNode _ _ Nodes => Z.of_nat (length Nodes)
  | _ => 0
  end.

(** [MapExpr.append] and [MapExpr.len]; the receiver is a map node. *)
Definition MapExpr_append (n : option MapElem) (m : Node) : Node :=
  match m with
  | MapExpr t p Elems => MapExpr t p (Elems ++ [n])
  | _ => m
  end.

Definition MapExpr_len (m : Node) : Z :=
  match m with
  | MapExpr _ _ Elems => Z.of_nat (length Elems)
  | _ => 0
  end.

(** [nodeStack] is a stack of nodes starting at a position, used for the
    order of operations in expressions. *)
Record nodeStack : Type := mkStack {
  stack_NodeType : NodeType;
  stack_Pos : Pos;
  stack_Nodes : list (option Node)
}.

(** [newStack] leaves [NodeType] at its zero value, which is [NodeList]. *)
Definition newStack (pos : Pos) : nodeStack := mkStack NodeList pos [].

Definition nodeStack_len (n : nodeStack) : Z :=
  Z.of_nat (length (stack_Nodes n)).

Definition nodeStack_push (node : option Node) (n : nodeStack) : nodeStack :=
  mkStack (stack_NodeType n) (stack_Pos n) (stack_Nodes n ++ [node]).

(** [pop] returns the last node and shortens the slice by one; on an
    empty stack it returns nil and leaves the stack alone. *)
Definition nodeStack_pop (n : nodeStack) : option Node * nodeStack :=
  if (0 <? Z.of_nat (length (stack_Nodes n)))%Z then
    let r :=
      match stack_Nodes n !! (length (stack_Nodes n) - 1)%nat with
      | Some node => node
      | None => None
      end in
    (r, mkStack (stack_NodeType n) (stack_Pos n)
          (take (length (stack_Nodes n) - 1) (stack_Nodes n)))
  else (None, n).

End WithFloat.
End Ast.

(** ** unicode/utf8 *)

Module utf8.
Local Open Scope Z_scope.

Definition RuneError : Z := 0xFFFD.

Definition maskx : Z := 0x3F.
Definition mask2 : Z := 0x1F.
Definition mask3 : Z := 0x0F.
Definition mask4 : Z := 0x07.

Definition locb : Z := 0x80.
Definition hicb : Z := 0xBF.

(** Entries of the [first] table: the low three bits hold the size, the
    high four the index into [acceptRanges]. *)
Definition xx : Z := 0xF1.
Definition as_ : Z := 0xF0.
Definition s1 : Z := 0x02.
Definition s2 : Z := 0x13.
Definition s3 : Z := 0x03.
Definition s4 : Z := 0x23.
Definition s5 : Z := 0x34.
Definition s6 : Z := 0x04.
Definition s7 : Z := 0x44.

Definition first (b : Z) : Z :=
  if b <? 0x80 then as_
  else if b <? 0xC2 then xx
  else if b <? 0xE0 then s1
  else if b =? 0xE0 then s2
  else if b <? 0xED then s3
  else if b =? 0xED then s4
  else if b <? 0xF0 then s3
  else if b =? 0xF0 then s5
  else if b <? 0xF4 then s6
  else if b =? 0xF4 then s7
  else xx.

Definition acceptRanges (i : Z) : Z * Z :=
  if i =? 1 then (0xA0, hicb)
  else if i =? 2 then (locb, 0x9F)
  else if i =? 3 then (0x90, hicb)
  else if i =? 4 then (locb, 0x8F)
  else (locb, hicb).

Definition byte (c : ascii) : Z := Z.of_N (N_of_ascii c).

(** [s[i]], read only below the length of [s]. *)
Definition index (s : string) (i : nat) : Z :=
  match String.get i s with
  | Some c => byte c
  | None => 0
  end.

(** [DecodeRuneInString]: the first rune of [s] and its width in bytes;
    [(RuneError, 0)] for the empty string and [(RuneError, 1)] for an
    invalid encoding. *)
Definition DecodeRuneInString (s : string) : Z * Z :=
  let n := Z.of_nat (String.length s) in
  if n <? 1 then (RuneError, 0)
  else
    let s0 := index s 0 in
    let x := first s0 in
    if as_ <=? x then
      ((if Z.testbit x 0 then RuneError else s0), 1)
    else
      let sz := Z.land x 7 in
      let accept := acceptRanges (Z.shiftr x 4) in
      if n <? sz then (RuneError, 1)
      else
        let s1 := index s 1 in
        if (s1 <? fst accept) || (snd accept <? s1) then (RuneError, 1)
        else if sz <=? 2 then
          (Z.lor (Z.shiftl (Z.land s0 mask2) 6) (Z.land s1 maskx), 2)
        else
          let s2 := index s 2 in
          if (s2 <? locb) || (hicb <? s2) then (RuneError, 1)
          else if sz <=? 3 then
            (Z.lor (Z.lor (Z.shiftl (Z.land s0 mask3) 12)
                          (Z.shiftl (Z.land s1 maskx) 6))
                   (Z.land s2 maskx), 3)
          else
            let s3 := index s 3 in
            if (s3 <? locb) || (hicb <? s3) then (RuneError, 1)
            else
              (Z.lor (Z.lor (Z.lor (Z.shiftl (Z.land s0 mask4) 18)
                                   (Z.shiftl (Z.land s1 maskx) 12))
                            (Z.shiftl (Z.land s2 maskx) 6))
                     (Z.land s3 maskx), 4).

Definition RuneSelf : Z := 0x80.
Definition MaxRune : Z := 0x10FFFF.
Definition surrogateMin : Z := 0xD800.
Definition surrogateMax : Z := 0xDFFF.

Definition rune1Max : Z := 0x7F.
Definition rune2Max : Z := 0x7FF.
Definition rune3Max : Z := 0xFFFF.

Definition tx : Z := 0x80.
Definition t2 : Z := 0xC0.
Definition t3 : Z := 0xE0.
Definition t4 : Z := 0xF0.

(** [ValidRune(r)]: [r] can be encoded as UTF-8. *)
Definition ValidRune (r : Z) : bool :=
  if (0 <=? r) && (r <? surrogateMin) then true
  else if (surrogateMax <? r) && (r <=? MaxRune) then true
  else false.

(** The conversion [byte(x)] of an integer, as a character. *)
Definition char (x : Z) : ascii := ascii_of_N (Z.to_N (x mod 256)).

(** The conversion [string(r)] of a rune: its UTF-8 encoding, the one of
    [RuneError] for a rune that is not valid. *)
Definition encode (r : Z) : string :=
  let three (r : Z) : string :=
    String (char (Z.lor t3 (Z.shiftr r 12)))
      (String (char (Z.lor tx (Z.land (Z.shiftr r 6) maskx)))
         (String (char (Z.lor tx (Z.land r maskx))) EmptyString)) in
  if (0 <=? r) && (r <=? rune1Max) then String (char r) EmptyString
  else if (0 <=? r) && (r <=? rune2Max) then
    String (char (Z.lor t2 (Z.shiftr r 6)))
      (String (char (Z.lor tx (Z.land r maskx))) EmptyString)
  else if (r <? 0) || (MaxRune <? r)
          || ((surrogateMin <=? r) && (r <=? surrogateMax)) then
    three RuneError
  else if r <=? rune3Max then three r
  else
    String (char (Z.lor t4 (Z.shiftr r 18)))
      (String (char (Z.lor tx (Z.land (Z.shiftr r 12) maskx)))
         (String (char (Z.lor tx (Z.land (Z.shiftr r 6) maskx)))
            (String (char (Z.lor tx (Z.land r maskx))) EmptyString))).

End utf8.

(** ** strings *)

Module strings.

(** [HasPrefix(s, prefix)] *)
Definition HasPrefix (s prefix : string) : bool := String.prefix prefix s.

(** [IndexByte(s, c)]: the index of the first byte [c] in [s], or -1. *)
Fixpoint IndexByte (s : string) (c : Z) : Z :=
  match s with
  | EmptyString => -1
  | String a s' =>
      if (utf8.byte a =? c)%Z then 0%Z
      else
        let i := IndexByte s' c in
        if (i <? 0)%Z then (-1)%Z else (i + 1)%Z
  end.

(** [Index(s, substr)]: the index of the first instance of [substr] in
    [s], or -1. *)
Fixpoint Index (s substr : string) : Z :=
  match s with
  | EmptyString => if HasPrefix EmptyString substr then 0%Z else (-1)%Z
  | String _ s' =>
      if HasPrefix s substr then 0%Z
      else
        let i := Index s' substr in
        if (i <? 0)%Z then (-1)%Z else (i + 1)%Z
  end.

(** The loop [for i, r := range s] that looks for [RuneError]: [s] is
    what is left of the string and [i] the byte offset reached, and a
    byte that starts no valid encoding is the rune [RuneError] of width
    1.  Every rune has at least one byte, so the length of the string is
    enough [fuel]. *)
Fixpoint rangeRuneError (fuel : nat) (s : string) (i : Z) : Z :=
  match fuel with
  | O => (-1)%Z
  | S fuel =>
      match s with
      | EmptyString => (-1)%Z
      | _ =>
          let '(r, w) := utf8.DecodeRuneInString s in
          if (r =? utf8.RuneError)%Z then i
          else
            rangeRuneError fuel
              (substring (Z.to_nat w) (String.length s - Z.to_nat w) s)
              (i + w)%Z
      end
  end.

(** [IndexRune(s, r)]: the index of the first instance of the rune [r]
    in [s], or -1. *)
Definition IndexRune (s : string) (r : Z) : Z :=
  if ((0 <=? r) && (r <? utf8.RuneSelf))%Z then IndexByte s r
  else if (r =? utf8.RuneError)%Z then rangeRuneError (String.length s) s 0
  else if negb (utf8.ValidRune r) then (-1)%Z
  else Index s (utf8.encode r).

(** [Count(s, substr)] for a [substr] of one byte [c]: the number of
    bytes [c] in [s]. *)
Fixpoint CountByte (s : string) (c : Z) : Z :=
  match s with
  | EmptyString => 0%Z
  | String a s' =>
      ((if utf8.byte a =? c then 1 else 0) + CountByte s' c)%Z
  end.

End strings.

(** ** The scanner (lex.go) *)

Module Lex.
Local Open Scope Z_scope.

(** The state functions of lex.go, by name: a [stateFn] value is nil
    ([None]) or one of them. *)
Inductive stateFn : Type := lexText.

Record lexerCfg : Type := mkCfg {
  BlockStartString : string;
  BlockEndString : string;
  VariableStartString : string;
  VariableEndString : string;
  CommentStartString : string;
  CommentEndString : string
}.

(** The scanner state.  [items] is the channel of scanned items: the
    sequence of items sent so far, oldest first. *)
Record lexer : Type := mkLexer {
  cfg : lexerCfg;
  name : string;
  filename : string;
  input : string;
  leftDelim : string;
  rightDelim : string;
  state : option stateFn;
  pos : Pos;
  start : Pos;
  width : Pos;
  lastPos : Pos;
  items : list item
}.

Definition set_state (st : option stateFn) (l : lexer) : lexer :=
  mkLexer (cfg l) (name l) (filename l) (input l) (leftDelim l)
    (rightDelim l) st (pos l) (start l) (width l) (lastPos l) (items l).

Definition set_pos (p : Pos) (l : lexer) : lexer :=
  mkLexer (cfg l) (name l) (filename l) (input l) (leftDelim l)
    (rightDelim l) (state l) p (start l) (width l) (lastPos l) (items l).

Definition set_start (p : Pos) (l : lexer) : lexer :=
  mkLexer (cfg l) (name l) (filename l) (input l) (leftDelim l)
    (rightDelim l) (state l) (pos l) p (width l) (lastPos l) (items l).

Definition set_width (w : Pos) (l : lexer) : lexer :=
  mkLexer (cfg l) (name l) (filename l) (input l) (leftDelim l)
    (rightDelim l) (state l) (pos l) (start l) w (lastPos l) (items l).

Definition send (it : item) (l : lexer) : lexer :=
  mkLexer (cfg l) (name l) (filename l) (input l) (leftDelim l)
    (rightDelim l) (state l) (pos l) (start l) (width l) (lastPos l)
    (items l ++ [it]).

Definition len (s : string) : Z := Z.of_nat (String.length s).

(** The slice expression [s[lo:hi]], which panics out of range. *)
Definition slice (s : string) (lo hi : Z) : result string :=
  if (0 <=? lo) && (lo <=? hi) && (hi <=? len s)
  then Ok (substring (Z.to_nat lo) (Z.to_nat (hi - lo)) s)
  else Panic.

(** [s[lo:]] *)
Definition slice_from (s : string) (lo : Z) : result string :=
  slice s lo (len s).

Definition eof : Z := -1.

(** [next] returns the next rune in the input. *)
Definition next (l : lexer) : result (Z * lexer) :=
  if len (input l) <=? pos l then
    Ok (eof, set_width 0 l)
  else
    rest ← slice_from (input l) (pos l);
    let '(r, w) := utf8.DecodeRuneInString rest in
    let l := set_width w l in
    let l := set_pos (pos l + width l) l in
    Ok (r, l).

(** [backup] steps back one rune. *)
Definition backup (l : lexer) : lexer := set_pos (pos l - width l) l.

(** [peek] returns but does not consume the next rune in the input. *)
Definition peek (l : lexer) : result (Z * lexer) :=
  '(r, l) ← next l;
  Ok (r, backup l).

(** [emit] passes an item back to the client. *)
Definition emit (t : itemType) (l : lexer) : result lexer :=
  text ← slice (input l) (start l) (pos l);
  let l := send (mkItem t (start l) text) l in
  Ok (set_start (pos l) l).

(** [ignore] skips over the pending input before this point. *)
Definition ignore (l : lexer) : lexer := set_start (pos l) l.

(** [errorf] sends an error token and returns the nil state; [msg] is
    the message [fmt.Sprintf(format, args...)] built by the caller's
    format and arguments. *)
Definition errorf (msg : string) (l : lexer) : lexer * option stateFn :=
  (send (mkItem tokenError (start l) msg) l, None).

(** The body of [lexText] after its loop: input exhausted. *)
Definition lexText_eof (l : lexer) : result (lexer * option stateFn) :=
  l ← (if start l <? pos l then emit tokenText l else Ok l);
  l ← emit tokenEOF l;
  Ok (l, None).

(** The loop of [lexText]; every iteration that does not leave the loop
    moves the cursor forward, and [fuel] bounds their number ([None]
    when it is used up). *)
Fixpoint lexText_loop (fuel : nat) (l : lexer)
    : option (result (lexer * option stateFn)) :=
  match fuel with
  | O => None
  | S fuel =>
      match slice_from (input l) (pos l) with
      | Panic => Some Panic
      | Ok rest =>
          if strings.HasPrefix rest (leftDelim l) then
            Some (l ← (if start l <? pos l then emit tokenText l else Ok l);
                  Ok (l, Some lexText))
          else
            match next l with
            | Panic => Some Panic
            | Ok (r, l) =>
                if r =? eof then Some (lexText_eof l)
                else lexText_loop fuel l
            end
      end
  end.

(** One more iteration than there are bytes is always enough. *)
Definition lexText_fuel (l : lexer) : nat := S (String.length (input l)).

Definition apply (f : stateFn) (l : lexer)
    : option (result (lexer * option stateFn)) :=
  match f with
  | lexText => lexText_loop (lexText_fuel l) l
  end.

(** The loop of [run], entered with [l.state] already assigned: it ends
    when the state is nil.  [None] when [fuel] iterations were not
    enough. *)
Fixpoint run_loop (fuel : nat) (l : lexer) : option (result lexer) :=
  match state l with
  | None => Some (Ok l)
  | Some f =>
      match fuel with
      | O => None
      | S fuel =>
          match apply f l with
          | None => None
          | Some Panic => Some Panic
          | Some (Ok (l, st)) => run_loop fuel (set_state st l)
          end
      end
  end.

(** [run] runs the state machine for the lexer. *)
Definition run (fuel : nat) (l : lexer) : option (result lexer) :=
  run_loop fuel (set_state (Some lexText) l).

Definition set_lastPos (p : Pos) (l : lexer) : lexer :=
  mkLexer (cfg l) (name l) (filename l) (input l) (leftDelim l)
    (rightDelim l) (state l) (pos l) (start l) (width l) p (items l).

Definition set_items (its : list item) (l : lexer) : lexer :=
  mkLexer (cfg l) (name l) (filename l) (input l) (leftDelim l)
    (rightDelim l) (state l) (pos l) (start l) (width l) (lastPos l) its.

(** [accept] consumes the next rune if it is from the valid set. *)
Definition accept (valid : string) (l : lexer) : result (bool * lexer) :=
  '(r, l) ← next l;
  if 0 <=? strings.IndexRune valid r then Ok (true, l)
  else Ok (false, backup l).

(** The loop of [acceptRun]; [None] when [fuel] iterations were not
    enough. *)
Fixpoint acceptRun_loop (fuel : nat) (valid : string) (l : lexer)
    : option (result lexer) :=
  match fuel with
  | O => None
  | S fuel =>
      match next l with
      | Panic => Some Panic
      | Ok (r, l) =>
          if 0 <=? strings.IndexRune valid r then acceptRun_loop fuel valid l
          else Some (Ok l)
      end
  end.

(** [acceptRun] consumes a run of runes from the valid set. *)
Definition acceptRun (fuel : nat) (valid : string) (l : lexer)
    : option (result lexer) :=
  match acceptRun_loop fuel valid l with
  | Some (Ok l) => Some (Ok (backup l))
  | r => r
  end.

(** The line feed, the only byte of the string ["\n"]. *)
Definition newline : Z := 10.

(** [lineNumber] reports which line we are on, based on the position of
    the previous item returned by [nextItem]; [Count] with the one-byte
    string ["\n"] counts the bytes equal to it. *)
Definition lineNumber (l : lexer) : result Z :=
  s ← slice (input l) 0 (lastPos l);
  Ok (1 + strings.CountByte s newline).

(** [nextItem] returns the next item from the input: it receives the
    oldest item sent and not yet received, and blocks ([None]) while
    there is none. *)
Definition nextItem (l : lexer) : option (item * lexer) :=
  match items l with
  | [] => None
  | it :: rest =>
      let l := set_items rest l in
      Some (it, set_lastPos (match it with mkItem _ p _ => p end) l)
  end.

End Lex.

(** ** Nodes in the store

    Node structs live on the heap and are reached through pointers; a
    field of interface type [Node] holds nil or the address of a struct.
    [Store] models this level, at which two fields can hold the same
    address. *)

Module Store.
Section WithFloat.
Context `{GoFloat}.

Definition ref := nat.

Inductive cell : Type :=
| ListNode (t : NodeType) (p : Pos) (Nodes : list (option ref))
| TextNode (t : NodeType) (p : Pos) (Text : string)
| VarNode (t : NodeType) (p : Pos) (Node_ : option ref)
| LookupNode (t : NodeType) (p : Pos) (Name : string)
| StringNode (t : NodeType) (p : Pos) (Value : string)
| BoolNode (t : NodeType) (p : Pos) (Value : bool)
| IntegerNode (t : NodeType) (p : Pos) (Value : Z)
| FloatNode (t : NodeType) (p : Pos) (Value : float64)
| UnaryNode (t : NodeType) (p : Pos) (Value : option ref) (Unary : item)
| AddExpr (t : NodeType) (p : Pos) (lhs rhs : option ref) (operator : item)
| MulExpr (t : NodeType) (p : Pos) (lhs rhs : option ref) (operator : item)
| MapExpr (t : NodeType) (p : Pos) (Elems : list (option ref))
| MapElem (t : NodeType) (p : Pos) (Key Value : option ref)
| IndexExpr (t : NodeType) (p : Pos) (Value Index : option ref)
| SetNode (t : NodeType) (p : Pos) (lhs rhs : option ref)
| ConditionalNode (t : NodeType) (p : Pos) (Guard Body : option ref)
| IfBlockNode (t : NodeType) (p : Pos) (Conditionals : list (option ref))
    (Else : option ref)
| ForNode (t : NodeType) (p : Pos) (ForExpr InExpr Body : option ref)
| BlockNode (t : NodeType) (p : Pos) (Name : string) (Body : option ref).

(** The heap: the struct at address [r] is the [r]-th cell, and a new
    struct gets the next address. *)
Definition heap := list cell.

(** Computations on the heap: [None] when the fuel of a recursion is
    used up, [Some Panic] for a panic. *)
Definition M (A : Type) : Type := heap -> option (result (A * heap)).

Definition ret {A : Type} (a : A) : M A := fun h => Some (Ok (a, h)).

Definition bind {A B : Type} (m : M A) (k : A -> M B) : M B := fun h =>
  match m h with
  | None => None
  | Some Panic => Some Panic
  | Some (Ok (a, h')) => k a h'
  end.

Definition panic {A : Type} : M A := fun _ => Some Panic.

Definition timeout {A : Type} : M A := fun _ => None.

(** [&T{...}] *)
Definition new (c : cell) : M ref := fun h =>
  Some (Ok (length h, h ++ [c])).

(** Reading the struct behind a pointer; nil panics. *)
Definition deref (n : option ref) : M cell := fun h =>
  match n with
  | None => Some Panic
  | Some r =>
      match h !! r with
      | Some c => Some (Ok (c, h))
      | None => Some Panic
      end
  end.

(** Assigning to fields of the struct at [r]. *)
Definition update (r : ref) (f : cell -> cell) : M unit := fun h =>
  match h !! r with
  | Some c => Some (Ok (tt, <[r := f c]> h))
  | None => Some Panic
  end.

Definition Position (c : cell) : Pos :=
  match c with
  | ListNode _ p _ | TextNode _ p _ | VarNode _ p _ | LookupNode _ p _
  | StringNode _ p _ | BoolNode _ p _ | IntegerNode _ p _
  | FloatNode _ p _ | UnaryNode _ p _ _ | AddExpr _ p _ _ _
  | MulExpr _ p _ _ _ | MapExpr _ p _ | MapElem _ p _ _
  | IndexExpr _ p _ _ | SetNode _ p _ _ | ConditionalNode _ p _ _
  | IfBlockNode _ p _ _ | ForNode _ p _ _ _ | BlockNode _ p _ _ => p
  end.

Definition Position_of (n : option ref) : M Pos :=
  bind (deref n) (fun c => ret (Position c)).

(** [l.Nodes = append(l.Nodes, n)], and the same for the other slice
    fields. *)
Definition append (n : option ref) (c : cell) : cell :=
  match c with
  | ListNode t p Nodes => ListNode t p (Nodes ++ [n])
  | MapExpr t p Elems => MapExpr t p (Elems ++ [n])
  | IfBlockNode t p Conditionals Else =>
      IfBlockNode t p (Conditionals ++ [n]) Else
  | _ => c
  end.

Definition set_Conditionals (cs : list (option ref)) (c : cell) : cell :=
  match c with
  | IfBlockNode t p _ Else => IfBlockNode t p cs Else
  | _ => c
  end.

Definition set_Else (n : option ref) (c : cell) : cell :=
  match c with
  | IfBlockNode t p Conditionals _ => IfBlockNode t p Conditionals n
  | _ => c
  end.

Definition set_Guard (n : option ref) (c : cell) : cell :=
  match c with
  | ConditionalNode t p _ Body => ConditionalNode t p n Body
  | _ => c
  end.

Definition set_ForExpr (n : option ref) (c : cell) : cell :=
  match c with
  | ForNode t p _ InExpr Body => ForNode t p n InExpr Body
  | _ => c
  end.

Definition set_InExpr (n : option ref) (c : cell) : cell :=
  match c with
  | ForNode t p ForExpr _ Body => ForNode t p ForExpr n Body
  | _ => c
  end.

Definition set_Body (n : option ref) (c : cell) : cell :=
  match c with
  | ConditionalNode t p Guard _ => ConditionalNode t p Guard n
  | ForNode t p ForExpr InExpr _ => ForNode t p ForExpr InExpr n
  | BlockNode t p Name _ => BlockNode t p Name n
  | _ => c
  end.

(** The type assertion of [elem.Copy()] to a pointer to [MapElem]. *)
Definition assert_MapElem (r : ref) : M ref :=
  bind (deref (Some r)) (fun c =>
    match c with
    | MapElem _ _ _ _ => ret r
    | _ => panic
    end).

Section Loops.
Variable copy : ref -> M ref.

(** [x.Copy()] on an interface value. *)
Definition callCopy (x : option ref) : M ref :=
  match x with
  | Some r => copy r
  | None => panic
  end.

(** [for _, elem := range elems { n.append(elem.Copy()) }] *)
Fixpoint appendCopies (n : ref) (elems : list (option ref)) : M unit :=
  match elems with
  | [] => ret tt
  | elem :: rest =>
      bind (callCopy elem) (fun c =>
      bind (update n (append (Some c))) (fun _ =>
      appendCopies n rest))
  end.

(** The same loop over [m.Elems], with the type assertion on every
    copy. *)
Fixpoint appendElemCopies (n : ref) (elems : list (option ref))
    : M unit :=
  match elems with
  | [] => ret tt
  | elem :: rest =>
      bind (callCopy elem) (fun c =>
      bind (assert_MapElem c) (fun c =>
      bind (update n (append (Some c))) (fun _ =>
      appendElemCopies n rest)))
  end.
End Loops.

(** [Copy], by the dynamic type of the struct at [r].  The recursion
    follows pointers, so it is bounded by [fuel]. *)
Fixpoint Copy (fuel : nat) (r : ref) : M ref :=
  match fuel with
  | O => timeout
  | S fuel =>
      bind (deref (Some r)) (fun c =>
      match c with
      | ListNode _ p Nodes =>
          bind (new (ListNode NodeList p [])) (fun n =>
          bind (appendCopies (Copy fuel) n Nodes) (fun _ =>
          ret n))
      | TextNode _ p Text => new (TextNode NodeText p Text)
      | VarNode t p Node_ => new (VarNode t p Node_)
      | LookupNode _ p Name => new (LookupNode NodeLookup p Name)
      | StringNode t p Value => new (StringNode t p Value)
      | BoolNode t p Value => new (BoolNode t p Value)
      | IntegerNode t p Value => new (IntegerNode t p Value)
      | FloatNode t p Value => new (FloatNode t p Value)
      | UnaryNode t p Value Unary => new (UnaryNode t p Value Unary)
      | AddExpr _ _ lhs rhs operator =>
          bind (Position_of lhs) (fun p =>
          new (AddExpr NodeAdd p lhs rhs operator))
      | MulExpr _ _ lhs rhs operator =>
          bind (Position_of lhs) (fun p =>
          new (MulExpr NodeMul p lhs rhs operator))
      | MapExpr _ p Elems =>
          bind (new (MapExpr NodeMapExpr p [])) (fun n =>
          bind (appendElemCopies (Copy fuel) n Elems) (fun _ =>
          ret n))
      | MapElem _ _ Key Value =>
          bind (Position_of Key) (fun p =>
          new (MapElem NodeMapElem p Key Value))
      | IndexExpr _ _ Value Index =>
          bind (Position_of Value) (fun p =>
          new (IndexExpr NodeIndexExpr p Value Index))
      | SetNode _ p lhs rhs =>
          bind (callCopy (Copy fuel) lhs) (fun lhs' =>
          bind (callCopy (Copy fuel) rhs) (fun rhs' =>
          new (SetNode NodeSet p (Some lhs') (Some rhs'))))
      | ConditionalNode t p Guard Body =>
          bind (new (ConditionalNode t p None None)) (fun n =>
          bind (callCopy (Copy fuel) Guard) (fun g =>
          bind (update n (set_Guard (Some g))) (fun _ =>
          bind (callCopy (Copy fuel) Body) (fun b =>
          bind (update n (set_Body (Some b))) (fun _ =>
          ret n)))))
      | IfBlockNode _ p Conditionals Else =>
          bind (new (IfBlockNode NodeIf p [] None)) (fun n =>
          bind (update n (set_Conditionals
                            (replicate (length Conditionals) None)))
            (fun _ =>
          bind (appendCopies (Copy fuel) n Conditionals) (fun _ =>
          bind (match Else with
                | Some e =>
                    bind (Copy fuel e) (fun e' =>
                    update n (set_Else (Some e')))
                | None => ret tt
                end) (fun _ =>
          ret n))))
      | ForNode _ p ForExpr InExpr Body =>
          bind (new (ForNode NodeFor p None None None)) (fun n =>
          bind (callCopy (Copy fuel) ForExpr) (fun f =>
          bind (update n (set_ForExpr (Some f))) (fun _ =>
          bind (callCopy (Copy fuel) InExpr) (fun i =>
          bind (update n (set_InExpr (Some i))) (fun _ =>
          bind (callCopy (Copy fuel) Body) (fun b =>
          bind (update n (set_Body (Some b))) (fun _ =>
          ret n)))))))
      | BlockNode t p Name Body =>
          bind (callCopy (Copy fuel) Body) (fun b =>
          new (BlockNode t p Name (Some b)))
      end)
  end.

(** *** The tree behind a pointer

    [load] reads the tree reachable from an address, to depth [fuel];
    [None] when the depth is not enough, or when the heap is not one
    that Go's types allow (a dangling address, or an element of [Elems]
    that is not a [MapElem]). *)
Section Load.
Variable load : ref -> option Ast.Node.

Definition load_child (n : option ref) : option (option Ast.Node) :=
  match n with
  | None => Some None
  | Some r =>
      match load r with
      | Some t => Some (Some t)
      | None => None
      end
  end.

Fixpoint load_children (ns : list (option ref))
    : option (list (option Ast.Node)) :=
  match ns with
  | [] => Some []
  | n :: rest =>
      match load_child n, load_children rest with
      | Some t, Some ts => Some (t :: ts)
      | _, _ => None
      end
  end.

Definition load_elem (n : option ref) : option (option Ast.MapElem) :=
  match load_child n with
  | Some None => Some None
  | Some (Some (Ast.MapElemNode m)) => Some (Some m)
  | _ => None
  end.

Fixpoint load_elems (ns : list (option ref))
    : option (list (option Ast.MapElem)) :=
  match ns with
  | [] => Some []
  | n :: rest =>
      match load_elem n, load_elems rest with
      | Some t, Some ts => Some (t :: ts)
      | _, _ => None
      end
  end.
End Load.

Fixpoint load (fuel : nat) (h : heap) (r : ref) : option Ast.Node :=
  match fuel with
  | O => None
  | S fuel =>
      let child := load_child (load fuel h) in
      c ← h !! r;
      match c with
      | ListNode t p Nodes =>
          ns ← load_children (load fuel h) Nodes;
          Some (Ast.ListNode t p ns)
      | TextNode t p Text => Some (Ast.TextNode t p Text)
      | VarNode t p Node_ =>
          n ← child Node_;
          Some (Ast.VarNode t p n)
      | LookupNode t p Name => Some (Ast.LookupNode t p Name)
      | StringNode t p Value => Some (Ast.StringNode t p Value)
      | BoolNode t p Value => Some (Ast.BoolNode t p Value)
      | IntegerNode t p Value => Some (Ast.IntegerNode t p Value)
      | FloatNode t p Value => Some (Ast.FloatNode t p Value)
      | UnaryNode t p Value Unary =>
          v ← child Value;
          Some (Ast.UnaryNode t p v Unary)
      | AddExpr t p lhs rhs operator =>
          l ← child lhs;
          r ← child rhs;
          Some (Ast.AddExpr t p l r operator)
      | MulExpr t p lhs rhs operator =>
          l ← child lhs;
          r ← child rhs;
          Some (Ast.MulExpr t p l r operator)
      | MapExpr t p Elems =>
          es ← load_elems (load fuel h) Elems;
          Some (Ast.MapExpr t p es)
      | MapElem t p Key Value =>
          k ← child Key;
          v ← child Value;
          Some (Ast.MapElemNode (Ast.mkMapElem t p k v))
      | IndexExpr t p Value Index =>
          v ← child Value;
          i ← child Index;
          Some (Ast.IndexExpr t p v i)
      | SetNode t p lhs rhs =>
          l ← child lhs;
          r ← child rhs;
          Some (Ast.SetNode t p l r)
      | ConditionalNode t p Guard Body =>
          g ← child Guard;
          b ← child Body;
          Some (Ast.ConditionalNode t p g b)
      | IfBlockNode t p Conditionals Else =>
          cs ← load_children (load fuel h) Conditionals;
          e ← child Else;
          Some (Ast.IfBlockNode t p cs e)
      | ForNode t p ForExpr InExpr Body =>
          f ← child ForExpr;
          i ← child InExpr;
          b ← child Body;
          Some (Ast.ForNode t p f i b)
      | BlockNode t p Name Body =>
          b ← child Body;
          Some (Ast.BlockNode t p Name b)
      end
  end.

(** Example heaps: a print node over a lookup node, and the three
    binary nodes over the same two lookup nodes. *)
Definition varHeap : heap :=
  [LookupNode NodeLookup 3%Z "x"; VarNode NodeVar 0%Z (Some 0%nat)].

Definition addHeap : heap :=
  [LookupNode NodeLookup 0%Z "a"; LookupNode NodeLookup 4%Z "b";
   AddExpr NodeAdd 0%Z (Some 0%nat) (Some 1%nat) (mkItem tokenAdd 2%Z "+");
   MulExpr NodeMul 0%Z (Some 0%nat) (Some 1%nat) (mkItem tokenMul 2%Z "*");
   MapElem NodeMapElem 0%Z (Some 0%nat) (Some 1%nat)].

(** An if-block with one conditional, at address 3. *)
Definition ifHeap : heap :=
  [LookupNode NodeLookup 6%Z "x"; TextNode NodeText 10%Z "hi";
   ConditionalNode NodeIf 3%Z (Some 0%nat) (Some 1%nat);
   IfBlockNode NodeIf 0%Z [Some 2%nat] None].

(** A heap with a node of every kind but the float literal; the elements
    of the list at address 19 are the block constructs, and the map at
    address 9 has a nil element. *)
Definition sampleHeap : heap :=
  [LookupNode NodeLookup 0%Z "a";
   LookupNode NodeLookup 4%Z "b";
   AddExpr NodeAdd 0%Z (Some 0%nat) (Some 1%nat) (mkItem tokenAdd 2%Z "+");
   MulExpr NodeMul 0%Z (Some 2%nat) (Some 1%nat) (mkItem tokenMul 6%Z "*");
   IntegerNode NodeInteger 9%Z 7%Z;
   UnaryNode NodeUnary 9%Z (Some 4%nat) (mkItem tokenSub 8%Z "-");
   StringNode NodeString 12%Z "k";
   MapElem NodeMapElem 12%Z (Some 6%nat) (Some 5%nat);
   MapExpr NodeMapExpr 11%Z [Some 7%nat];
   MapExpr NodeMapExpr 11%Z [Some 7%nat; None];
   IndexExpr NodeIndexExpr 11%Z (Some 8%nat) (Some 6%nat);
   VarNode NodeVar 20%Z (Some 10%nat);
   TextNode NodeText 30%Z "text";
   BoolNode NodeBool 40%Z true;
   SetNode NodeSet 50%Z (Some 0%nat) (Some 3%nat);
   ConditionalNode NodeElseIf 60%Z (Some 13%nat) (Some 12%nat);
   IfBlockNode NodeIf 60%Z [] (Some 12%nat);
   ForNode NodeFor 70%Z (Some 0%nat) (Some 8%nat) (Some 11%nat);
   BlockNode NodeList 80%Z "main" (Some 17%nat);
   ListNode NodeList 0%Z
     [Some 12%nat; Some 14%nat; Some 16%nat; Some 17%nat; Some 18%nat];
   SetNode NodeSet 90%Z None (Some 0%nat);
   ListNode NodeList 0%Z [Some 12%nat; None]].

(** [Store.Copy] at address [r], read back as a tree, against [Ast.Copy]
    of the tree at [r]. *)
Definition copy_as_tree (fuel : nat) (h : heap) (r : ref)
    : option (result Ast.Node) :=
  match Copy fuel r h with
  | None => None
  | Some Panic => Some Panic
  | Some (Ok (r', h')) => t ← load fuel h' r'; Some (Ok t)
  end.

Definition tree_copy (fuel : nat) (h : heap) (r : ref)
    : option (result Ast.Node) :=
  t ← load fuel h r; Some (Ast.Copy t).

(** What the node at [r] renders as, through the tree it denotes. *)
Definition render (fuel : nat) (h : heap) (r : ref)
    : option (result string) :=
  t ← load fuel h r;
  Some (Ast.Node_String t).

End WithFloat.
End Store.

(** ** Variable contexts

    The context code itself ([NewContext], [Context.lookup],
    [contextStack]) is exercised by the context tests but is not among the
    sources; it is modelled here as the specification describes it. *)

Module Context.
Section WithValue.
(** Host values as seen by the caller of [lookup]. *)
Context {Value : Type}.

(** Modelled from the spec: a context wraps one host value, either
    record-like (named fields in declaration order) or map-like (a
    string-keyed associative container). *)
Inductive Context : Type :=
| RecordContext (fields : list (string * Value))
| MapContext (entries : gmap string Value).

(** The first field whose declared name equals [name]. *)
Fixpoint field (fields : list (string * Value)) (name : string)
    : option Value :=
  match fields with
  | [] => None
  | (k, v) :: rest => if decide (k = name) then Some v else field rest name
  end.

(** Modelled from the spec: [Context.lookup(name)], with [Some v] for
    [(v, true)] and [None] for not found. *)
Definition lookup (c : Context) (name : string) : option Value :=
  match c with
  | RecordContext fields => field fields name
  | MapContext entries => entries !! name
  end.

(** Modelled from the spec: the context stack is the ordered sequence of
    pushed contexts, first pushed first. *)
Definition contextStack : Type := list Context.

(** Modelled from the spec: [push] appends to the end of the layering. *)
Definition push (c : Context) (s : contextStack) : contextStack :=
  s ++ [c].

(** The scan of the layers below index [i], from index [i - 1] down to
    index 0. *)
Fixpoint scan (s : list Context) (i : nat) (name : string)
    : option Value :=
  match i with
  | O => None
  | S j =>
      match s !! j with
      | Some c =>
          match lookup c name with
          | Some v => Some v
          | None => scan s j name
          end
      | None => scan s j name
      end
  end.

(** Modelled from the spec: [contextStack.lookup(name)] scans from the
    most recently pushed context backward toward the first pushed and
    returns the first match. *)
Definition stack_lookup (s : contextStack) (name : string)
    : option Value :=
  scan s (length s) name.

End WithValue.
Arguments Context : clear implicits.
Arguments contextStack : clear implicits.

(** The host values of the context tests: strings and integers. *)
Inductive HostValue : Type :=
| HostString (s : string)
| HostInt (n : Z).

(** The two layers pushed by [TestMapMulti], in the order pushed. *)
Definition person : Context HostValue :=
  MapContext (<["name" := HostString "Jason"]>
                (<["Age" := HostString "32"]> ∅)).

Definition counters : Context HostValue :=
  MapContext (<["Foo" := HostInt 1]> ∅).

(** A layer whose [name] hides the one of [person]. *)
Definition alias : Context HostValue :=
RecordContext [("name", HostString "J."); ("Foo", HostInt 2)].

End Context.

(** ** Predicates of the statements *)

Module LexSpec.
Import Lex.
Local Open Scope Z_scope.

(** The cursor is within the input. *)
Definition in_bounds (l : lexer) : Prop := 0 <= pos l <= len (input l).

(** The left delimiter starts at byte offset [p] of the input. *)
Definition delimAt (l : lexer) (p : Z) : bool :=
  match slice_from (input l) p with
  | Ok rest => strings.HasPrefix rest (leftDelim l)
  | Panic => false
  end.

(** The byte offsets at which the loop of [lexText] tests for the left
    delimiter: the cursor, and the cursor again after every rune read,
    until [next] reports the end of the input. *)
Fixpoint scanned (fuel : nat) (l : lexer) : list Z :=
  match fuel with
  | O => []
  | S fuel =>
      pos l ::
      match next l with
      | Ok (r, l') => if r =? eof then [] else scanned fuel l'
      | Panic => []
      end
  end.

(** The scan of [lexText] from the cursor on does not find the left
    delimiter. *)
Definition delimFree (l : lexer) : bool :=
  forallb (fun p => negb (delimAt l p)) (scanned (lexText_fuel l) l).

(** The pending bytes as a text token, if there are any. *)
Definition pendingText (l : lexer) : list item :=
  if start l <? pos l then
    [mkItem tokenText (start l)
       (substring (Z.to_nat (start l)) (Z.to_nat (pos l - start l))
          (input l))]
  else [].

(** Example scanners: [scanner input leftDelim] is a freshly made lexer
    over [input], with nothing read and nothing sent. *)
Definition jinjaCfg : lexerCfg := mkCfg "{%" "%}" "{{" "}}" "{#" "#}".

Definition scanner (input leftDelim : string) : lexer :=
  mkLexer jinjaCfg "example" "example.jigo" input leftDelim "}}" None
    0 0 0 0 [].

(** The pending item lies within the input: [start <= pos], both within
    the bounds of the input. *)
Definition pending_ok (l : lexer) : Prop :=
  0 <= start l <= pos l /\ pos l <= len (input l).

(** What [lexText] sends when it returns with the cursor at [p]. *)
Definition sent (l : lexer) (p : Z) (st : option stateFn) : list item :=
  (if start l <? p then
     [mkItem tokenText (start l)
        (substring (Z.to_nat (start l)) (Z.to_nat (p - start l)) (input l))]
   else [])
  ++ match st with
     | None => [mkItem tokenEOF p EmptyString]
     | Some _ => []
     end.

(** What [lexText] leaves when it returns [l'] and the state [st]. *)
Definition lexText_post (l l' : lexer) (st : option stateFn) : Prop :=
  input l' = input l /\ leftDelim l' = leftDelim l /\
  state l' = state l /\ lastPos l' = lastPos l /\
  pos l <= pos l' <= len (input l) /\ start l' = pos l' /\
  items l' = items l ++ sent l (pos l') st /\
  match st with
  | None => pos l' = len (input l)
  | Some f => f = lexText /\ delimAt l (pos l') = true
  end.

(** The number of line feeds in the bytes [lo..hi) of the input. *)
Definition newlines (l : lexer) (lo hi : Z) : Z :=
  strings.CountByte
    (substring (Z.to_nat lo) (Z.to_nat (hi - lo)) (input l)) newline.

End LexSpec.

Module AstSpec.
Section WithFloat.
Context `{GoFloat}.
Import Ast.

(** No if-block with conditionals is among the nodes that [Copy] copies
    in turn: the elements of a list, the operands of [set], the guard and
    body of a conditional, the else body of an if-block, the parts of a
    [for] and the body of a block. *)
Fixpoint ifFree (n : Node) : bool :=
  let child (o : option Node) : bool :=
    match o with
    | Some n' => ifFree n'
    | None => true
    end in
  match n with
  | ListNode _ _ Nodes => forallb child Nodes
  | SetNode _ _ lhs rhs => child lhs && child rhs
  | ConditionalNode _ _ Guard Body => child Guard && child Body
  | IfBlockNode _ _ Conditionals Else =>
      match Conditionals with
      | [] => child Else
      | _ :: _ => false
      end
  | ForNode _ _ ForExpr InExpr Body =>
      child ForExpr && child InExpr && child Body
  | BlockNode _ _ _ Body => child Body
  | _ => true
  end.

Definition ifFree_child (o : option Node) : bool :=
  match o with
  | Some n => ifFree n
  | None => true
  end.

(** [Copy] meets no nil where it calls a method: no nil element of a
    list or of a map, no nil left operand, index base or map key, no nil
    part of a [set], a conditional, a [for] or a block, and so on below
    every node that is copied in turn. *)
Fixpoint copyable (n : Node) : bool :=
  let child (o : option Node) : bool :=
    match o with
    | Some n' => copyable n'
    | None => false
    end in
  let keyed (e : option MapElem) : bool :=
    match e with
    | Some (mkMapElem _ _ (Some _) _) => true
    | _ => false
    end in
  match n with
  | ListNode _ _ Nodes => forallb child Nodes
  | AddExpr _ _ lhs _ _ | MulExpr _ _ lhs _ _ => bool_decide (is_Some lhs)
  | MapExpr _ _ Elems => forallb keyed Elems
  | MapElemNode m => keyed (Some m)
  | IndexExpr _ _ Value _ => bool_decide (is_Some Value)
  | SetNode _ _ lhs rhs => child lhs && child rhs
  | ConditionalNode _ _ Guard Body => child Guard && child Body
  | IfBlockNode _ _ Conditionals Else =>
      forallb child Conditionals &&
      match Else with
      | Some e => copyable e
      | None => true
      end
  | ForNode _ _ ForExpr InExpr Body =>
      child ForExpr && child InExpr && child Body
  | BlockNode _ _ _ Body => child Body
  | _ => true
  end.

Definition copyable_child (o : option Node) : bool :=
  match o with
  | Some n => copyable n
  | None => false
  end.

Definition keyed (e : option MapElem) : bool :=
  match e with
  | Some (mkMapElem _ _ (Some _) _) => true
  | _ => false
  end.

(** A print node without an expression, directly or at the end of a
    chain of print nodes. *)
Fixpoint unfilled (n : Node) : bool :=
  match n with
  | VarNode _ _ None => true
  | VarNode _ _ (Some n') => unfilled n'
  | _ => false
  end.

(** [k] calls of [pop] in a row: the nodes returned, in the order
    returned, and the stack left. *)
Fixpoint nodeStack_pops (k : nat) (s : nodeStack)
    : list (option Node) * nodeStack :=
  match k with
  | O => ([], s)
  | S k =>
      let '(r, s) := nodeStack_pop s in
      let '(rs, s) := nodeStack_pops k s in
      (r :: rs, s)
  end.

End WithFloat.
End AstSpec.

(** An instance without float values, for examples in which no float
    literal occurs. *)
Definition noFloat : GoFloat := {|
  float64 := Empty_set;
  ParseFloat := fun _ => None;
  Sprint_float64 := fun f => match f with end
|}.


(** Frame conditions for computations on the heap. *)
Module StoreSpec.
Section WithFloat.
Context `{GoFloat}.
Import Store.

(** [m] leaves the cells below address [b] as they are, and frees
    none. *)
Definition keeps {A : Type} (b : nat) (m : M A) : Prop :=
  forall h a h',
    (b <= length h)%nat -> m h = Some (Ok (a, h')) ->
    take b h' = take b h /\ (length h <= length h')%nat.

(** [m], run after the struct at [n] was allocated, returns [n]. *)
Definition returns_ref (n : ref) (m : M ref) : Prop :=
  forall h r' h',
    m h = Some (Ok (r', h')) -> r' = n /\ (length h <= length h')%nat.

(** [m] returns the address of a struct it allocated. *)
Definition fresh (m : M ref) : Prop :=
  forall h r' h',
    m h = Some (Ok (r', h')) -> (length h <= r' < length h')%nat.

End WithFloat.
End StoreSpec.

(** The heap after a copy, for examples. *)
Definition copied (fuel : nat) (r : Store.ref) (h : @Store.heap noFloat)
    : Store.ref * @Store.heap noFloat :=
  match Store.Copy fuel r h with
  | Some (Ok p) => p
  | _ => (0%nat, [])
  end.

(** * Properties *)

(** ** Strings and runes *)

Section StringFacts.
Local Open Scope Z_scope.

Lemma substring_length (s : string) (n m : nat) :
  (n + m <= String.length s)%nat -> String.length (substring n m s) = m.
Proof.
  revert n m. induction s as [|c s IH]; intros [|n] [|m] Hle;
    simpl in *; try lia; try reflexivity.
  - f_equal. apply (IH 0%nat). lia.
  - apply IH. lia.
  - apply IH. lia.
Qed.

Lemma substring_zero (s : string) (n : nat) : substring n 0 s = EmptyString.
Proof.
  revert n. induction s as [|c s IH]; intros [|n]; simpl; auto.
Qed.

Lemma slice_in_range (s : string) (lo hi : Z) :
  0 <= lo <= hi -> hi <= Lex.len s ->
  Lex.slice s lo hi = Ok (substring (Z.to_nat lo) (Z.to_nat (hi - lo)) s).
Proof.
  intros Hlo Hhi. unfold Lex.slice.
  destruct (Z.leb_spec 0 lo), (Z.leb_spec lo hi), (Z.leb_spec hi (Lex.len s));
    simpl; try lia; reflexivity.
Qed.

Lemma slice_from_length (s rest : string) (p : Z) :
  Lex.slice_from s p = Ok rest ->
  0 <= p <= Lex.len s /\ Lex.len rest = Lex.len s - p.
Proof.
  unfold Lex.slice_from, Lex.slice.
  destruct (Z.leb_spec 0 p), (Z.leb_spec p (Lex.len s)),
    (Z.leb_spec (Lex.len s) (Lex.len s)); simpl; try discriminate.
  intros [= <-]. split; [lia|].
  unfold Lex.len in *. rewrite substring_length; lia.
Qed.

Lemma byte_nonneg (c : ascii) : 0 <= utf8.byte c.
Proof. unfold utf8.byte. lia. Qed.

Lemma index_nonneg (s : string) (i : nat) : 0 <= utf8.index s i.
Proof.
  unfold utf8.index. destruct (get i s); [apply byte_nonneg | lia].
Qed.

(** A decoded rune is never negative, and on a non-empty string its
    width is at least one byte and at most the bytes there are. *)
Lemma first_values (b : Z) :
  In (utf8.first b)
     [utf8.as_; utf8.xx; utf8.s1; utf8.s2; utf8.s3; utf8.s4; utf8.s5;
      utf8.s6; utf8.s7].
Proof.
  unfold utf8.first.
  repeat match goal with
  | |- context [if ?c then _ else _] => destruct c
  end; simpl; tauto.
Qed.

(** A decoded rune is never negative, and on a non-empty string its
    width is at least one byte and at most the bytes there are. *)
Lemma DecodeRuneInString_bounds (s : string) :
  0 < Lex.len s ->
  0 <= fst (utf8.DecodeRuneInString s) /\
  1 <= snd (utf8.DecodeRuneInString s) <= Lex.len s.
Proof.
  intros Hn. unfold utf8.DecodeRuneInString. unfold Lex.len in *.
  pose proof (index_nonneg s 0) as H0.
  set (n := Z.of_nat (String.length s)) in *.
  set (s0 := utf8.index s 0) in *.
  set (b1 := utf8.index s 1). set (b2 := utf8.index s 2).
  set (b3 := utf8.index s 3).
  assert (Hland : forall a m, 0 <= m -> 0 <= Z.land a m)
    by (intros; apply Z.land_nonneg; auto).
  assert (Hm : 0 <= utf8.maskx /\ 0 <= utf8.mask2 /\ 0 <= utf8.mask3
               /\ 0 <= utf8.mask4) by (cbv; intuition discriminate).
  destruct Hm as (Hmx & Hm2 & Hm3 & Hm4).
  match goal with
  | |- context [(Z.lor (Z.shiftl ?a 6) ?b, 2)] =>
      assert (Hr2 : 0 <= Z.lor (Z.shiftl a 6) b)
        by (rewrite Z.lor_nonneg, Z.shiftl_nonneg; auto);
      set (r2 := Z.lor (Z.shiftl a 6) b) in *; clearbody r2
  end.
  match goal with
  | |- context [(Z.lor (Z.lor (Z.shiftl ?a 12) (Z.shiftl ?b 6)) ?c, 3)] =>
      assert (Hr3 : 0 <= Z.lor (Z.lor (Z.shiftl a 12) (Z.shiftl b 6)) c)
        by (rewrite !Z.lor_nonneg, !Z.shiftl_nonneg; auto);
      set (r3 := Z.lor (Z.lor (Z.shiftl a 12) (Z.shiftl b 6)) c) in *;
      clearbody r3
  end.
  match goal with
  | |- context [(?r, 4)] =>
      assert (Hr4 : 0 <= r)
        by (rewrite !Z.lor_nonneg, !Z.shiftl_nonneg; auto);
      set (r4 := r) in *; clearbody r4
  end.
  destruct (Z.ltb_spec n 1); [lia|].
  pose proof (first_values s0) as Hx.
  set (x := utf8.first s0) in *. clearbody x b1 b2 b3.
  simpl in Hx.
  repeat (destruct Hx as [<-|Hx]); try contradiction;
    unfold utf8.as_, utf8.xx, utf8.s1, utf8.s2, utf8.s3, utf8.s4, utf8.s5,
      utf8.s6, utf8.s7, utf8.RuneError, utf8.acceptRanges, utf8.locb,
      utf8.hicb;
    repeat match goal with
    | |- context [Z.land ?a 7] =>
        let v := eval vm_compute in (Z.land a 7) in
        change (Z.land a 7) with v
    | |- context [Z.shiftr ?a 4] =>
        let v := eval vm_compute in (Z.shiftr a 4) in
        change (Z.shiftr a 4) with v
    end; cbn;
    repeat match goal with
    | |- context [if ?b <? ?c then _ else _] =>
        destruct (Z.ltb_spec b c); cbn
    | |- context [if (?b <? ?c) || _ then _ else _] =>
        destruct (Z.ltb_spec b c); cbn
    end; lia.
Qed.

End StringFacts.

(** ** The scanner cursor *)

Section LexFacts.
Import Lex LexSpec.
Local Open Scope Z_scope.

(** [next] at the end of the input. *)
Lemma next_at_end (l : lexer) :
  len (input l) <= pos l -> next l = Ok (eof, set_width 0 l).
Proof.
  intros Hge. unfold next.
  destruct (Z.leb_spec (len (input l)) (pos l)); [reflexivity | lia].
Qed.

(** [next] before the end of the input consumes one rune. *)
Lemma next_before_end (l : lexer) :
  0 <= pos l < len (input l) ->
  exists r w,
    next l = Ok (r, set_pos (pos l + w) (set_width w l)) /\
    0 <= r /\ 1 <= w /\ pos l + w <= len (input l).
Proof.
  intros [Hlo Hhi]. unfold next.
  destruct (Z.leb_spec (len (input l)) (pos l)); [lia|].
  destruct (slice_from (input l) (pos l)) as [rest|] eqn:Hrest.
  - simpl. apply slice_from_length in Hrest as [_ Hlen].
    pose proof (DecodeRuneInString_bounds rest ltac:(lia)) as (Hr & Hw1 & Hw2).
    destruct (utf8.DecodeRuneInString rest) as [r w]. simpl in *.
    exists r, w. repeat split; try lia.
  - unfold slice_from in Hrest. rewrite slice_in_range in Hrest by lia.
    discriminate.
Qed.

Lemma set_pos_width_end (l : lexer) (p w : Z) :
  set_width 0 (set_pos (len (input l)) (set_pos p (set_width w l))) =
  set_width 0 (set_pos (len (input l)) l).
Proof. destruct l; reflexivity. Qed.

Lemma set_width_at_end (l : lexer) :
  pos l = len (input l) ->
  set_width 0 l = set_width 0 (set_pos (len (input l)) l).
Proof. destruct l; simpl; intros ->; reflexivity. Qed.

Lemma delimAt_slice (l : lexer) (rest : string) :
  slice_from (input l) (pos l) = Ok rest ->
  strings.HasPrefix rest (leftDelim l) = delimAt l (pos l).
Proof. unfold delimAt. intros ->. reflexivity. Qed.

(** With no left delimiter where the loop of [lexText] tests for it, the
    loop runs to the end of the input and leaves through [break]. *)
Lemma lexText_loop_scan (fuel : nat) (l : lexer) :
  in_bounds l ->
  forallb (fun p => negb (delimAt l p)) (scanned fuel l) = true ->
  (Z.to_nat (len (input l) - pos l) < fuel)%nat ->
  lexText_loop fuel l =
  Some (lexText_eof (set_width 0 (set_pos (len (input l)) l))).
Proof.
  revert l. induction fuel as [|fuel IH]; intros l Hb Hfree Hfuel; [lia|].
  unfold in_bounds in Hb.
  cbn [scanned forallb] in Hfree.
  apply andb_true_iff in Hfree as [Hhere Hrest].
  apply negb_true_iff in Hhere.
  cbn [lexText_loop].
  assert (Hs : slice_from (input l) (pos l) =
               Ok (substring (Z.to_nat (pos l))
                     (Z.to_nat (len (input l) - pos l)) (input l)))
    by (apply slice_in_range; lia).
  rewrite Hs. cbv beta iota.
  rewrite (delimAt_slice _ _ Hs), Hhere.
  destruct (Z.eq_dec (pos l) (len (input l))) as [Heq|Hne].
  - rewrite next_at_end by lia. cbn.
    rewrite <- set_width_at_end by assumption. reflexivity.
  - destruct (next_before_end l) as (r & w & Hnext & Hr & Hw & Hle); [lia|].
    rewrite Hnext in Hrest |- *.
    destruct (Z.eqb_spec r eof) as [->|_]; [unfold eof in Hr; lia|].
    rewrite IH.
    + cbn [input set_pos set_width]. rewrite set_pos_width_end. reflexivity.
    + unfold in_bounds. destruct l; simpl in *. lia.
    + replace (fun p => negb (delimAt (set_pos (pos l + w) (set_width w l)) p))
        with (fun p => negb (delimAt l p)) by (destruct l; reflexivity).
      assumption.
    + destruct l; simpl in *. lia.
Qed.

(** The tail of [lexText] once the cursor is at the end of the input. *)
Lemma lexText_eof_items (l : lexer) :
  0 <= start l <= pos l -> pos l = len (input l) ->
  exists l',
    lexText_eof l = Ok (l', None) /\
    items l' = items l ++ pendingText l ++ [mkItem tokenEOF (pos l) EmptyString] /\
    pos l' = pos l /\ start l' = pos l /\ state l' = state l /\
    input l' = input l.
Proof.
  intros Hs Hp. unfold lexText_eof, pendingText, emit.
  destruct l as [c nm fn inp ld rd st p s w lp its]. cbn in *. subst p.
  destruct (Z.ltb_spec s (len inp)) as [Hlt|Hge]; cbn.
  - rewrite slice_in_range by lia. cbn.
    rewrite slice_in_range by lia. cbn.
    rewrite Z.sub_diag, substring_zero.
    eexists; split; [reflexivity|]. cbn.
    rewrite <- app_assoc. auto.
  - replace s with (len inp) by lia.
    rewrite slice_in_range by lia. cbn.
    rewrite Z.sub_diag, substring_zero.
    eexists; split; [reflexivity|]. cbn. auto.
Qed.

(** [lexText] entered with the left delimiter at the cursor returns
    itself as the next state, with the cursor where it was. *)
Lemma lexText_at_delim (l : lexer) :
  0 <= start l <= pos l -> in_bounds l -> delimAt l (pos l) = true ->
  exists l',
    apply lexText l = Some (Ok (l', Some lexText)) /\
    input l' = input l /\ leftDelim l' = leftDelim l /\
    pos l' = pos l /\ start l' = pos l /\ state l' = state l /\
    Forall (fun it => typ it = tokenText)
      (drop (length (items l)) (items l')).
Proof.
  intros Hs Hb Hd. unfold in_bounds in Hb.
  unfold apply, lexText_fuel. cbn [lexText_loop].
  assert (Hsl : slice_from (input l) (pos l) =
                Ok (substring (Z.to_nat (pos l))
                      (Z.to_nat (len (input l) - pos l)) (input l)))
    by (apply slice_in_range; lia).
  rewrite Hsl. cbv beta iota. rewrite (delimAt_slice _ _ Hsl), Hd.
  destruct (Z.ltb_spec (start l) (pos l)) as [Hlt|Hge].
  - unfold emit. rewrite slice_in_range by lia. cbn.
    eexists; split; [reflexivity|]. cbn. repeat split; auto.
    rewrite drop_app_length. repeat constructor.
  - cbn. eexists; split; [reflexivity|]. repeat split; auto; [lia|].
    rewrite drop_all. constructor.
Qed.

Lemma run_loop_step (fuel : nat) (l l' : lexer) (f : stateFn)
    (st : option stateFn) :
  state l = Some f -> apply f l = Some (Ok (l', st)) ->
  run_loop (S fuel) l = run_loop fuel (set_state st l').
Proof. intros Hst Happ. cbn [run_loop]. rewrite Hst, Happ. reflexivity. Qed.

(** Once [lexText] is entered with the left delimiter at the cursor,
    the loop of [run] never reaches the nil state. *)
Lemma run_loop_at_delim (fuel : nat) (l : lexer) :
  0 <= start l <= pos l -> in_bounds l -> delimAt l (pos l) = true ->
  state l = Some lexText ->
  run_loop fuel l = None.
Proof.
  revert l. induction fuel as [|fuel IH]; intros l Hs Hb Hd Hst.
  - cbn. rewrite Hst. reflexivity.
  - cbn [run_loop]. rewrite Hst.
    destruct (lexText_at_delim l Hs Hb Hd)
      as (l' & -> & Hin & Hld & Hpos & Hstart & _ & _).
    apply IH.
    + destruct l'; simpl in *. lia.
    + unfold in_bounds in *. destruct l'; simpl in *. subst. lia.
    + unfold delimAt in *. destruct l'; simpl in *. subst. assumption.
    + destruct l'; reflexivity.
Qed.

(** C10: the cursor stays within the input.  From a position within
    bounds, [next] at the end of the input returns [eof], sets the width
    to 0 and leaves the position alone; before the end it moves forward
    by the width of the rune read and stays within the input; in both
    cases one [backup] restores the position, so [peek] does not move the
    cursor. *)
Theorem cursor_stays_in_bounds (l : lexer) :
  in_bounds l ->
  exists r l',
    next l = Ok (r, l') /\ peek l = Ok (r, backup l') /\
    input l' = input l /\
    in_bounds l' /\ in_bounds (backup l') /\
    pos (backup l') = pos l /\
    (len (input l) <= pos l ->
     r = eof /\ width l' = 0 /\ pos l' = pos l) /\
    (pos l < len (input l) ->
     r <> eof /\ 0 < width l' /\ pos l' = pos l + width l').
Proof.
  intros Hb. unfold in_bounds in *.
  destruct (Z.le_gt_cases (len (input l)) (pos l)) as [Hend|Hin].
  - exists eof, (set_width 0 l).
    unfold peek. rewrite next_at_end by assumption.
    destruct l; cbn in *. repeat split; auto; lia.
  - destruct (next_before_end l) as (r & w & Hnext & Hr & Hw & Hle); [lia|].
    exists r, (set_pos (pos l + w) (set_width w l)).
    unfold peek. rewrite Hnext.
    destruct l; cbn in *. unfold eof. repeat split; auto; lia.
Qed.

Lemma cursor_stays_in_bounds_witness :
  exists r l',
    next (scanner "ab" "{{") = Ok (r, l') /\
    peek (scanner "ab" "{{") = Ok (r, backup l') /\
    input l' = input (scanner "ab" "{{") /\
    in_bounds l' /\ in_bounds (backup l') /\
    pos (backup l') = pos (scanner "ab" "{{") /\
    (len (input (scanner "ab" "{{")) <= pos (scanner "ab" "{{") ->
     r = eof /\ width l' = 0 /\ pos l' = pos (scanner "ab" "{{")) /\
    (pos (scanner "ab" "{{") < len (input (scanner "ab" "{{")) ->
     r <> eof /\ 0 < width l' /\
     pos l' = pos (scanner "ab" "{{") + width l').
Proof.
  apply (cursor_stays_in_bounds (scanner "ab" "{{")).
  unfold in_bounds. vm_compute. split; discriminate.
Defined.

(** C7: when [lexText] exhausts the input without finding the left
    delimiter, it sends the pending bytes as one text token exactly when
    there is at least one pending byte, then one EOF token, and returns
    the nil state, which ends [run]. *)
Theorem lexText_exhausts_input (l : lexer) :
  0 <= start l <= pos l -> in_bounds l -> state l = Some lexText ->
  delimFree l = true ->
  exists l',
    apply lexText l = Some (Ok (l', None)) /\
    items l' =
      items l
      ++ (if start l <? len (input l) then
            [mkItem tokenText (start l)
               (substring (Z.to_nat (start l))
                  (Z.to_nat (len (input l) - start l)) (input l))]
          else [])
      ++ [mkItem tokenEOF (len (input l)) EmptyString] /\
    pos l' = len (input l) /\ start l' = len (input l) /\
    forall fuel, run_loop (S fuel) l = Some (Ok (set_state None l')).
Proof.
  intros Hs Hb Hst Hfree.
  assert (Hscan : apply lexText l =
    Some (lexText_eof (set_width 0 (set_pos (len (input l)) l)))).
  { unfold apply. apply lexText_loop_scan; [assumption|assumption|].
    unfold lexText_fuel, in_bounds, len in *. lia. }
  unfold in_bounds in Hb.
  destruct (lexText_eof_items (set_width 0 (set_pos (len (input l)) l)))
    as (l' & Heof & Hitems & Hpos & Hstart & _ & _).
  { destruct l; cbn in *. lia. }
  { destruct l; reflexivity. }
  exists l'. split; [|split; [|split; [|split]]].
  - rewrite Hscan, Heof. reflexivity.
  - rewrite Hitems. unfold pendingText. destruct l; reflexivity.
  - rewrite Hpos. destruct l; reflexivity.
  - rewrite Hstart. destruct l; reflexivity.
  - intros fuel.
    rewrite (run_loop_step fuel l l' lexText None Hst)
      by (rewrite Hscan, Heof; reflexivity).
    destruct fuel; destruct l'; reflexivity.
Qed.

Lemma lexText_exhausts_input_witness :
  exists l',
    apply lexText (set_state (Some lexText) (scanner "hello" "{{")) =
      Some (Ok (l', None)) /\
    items l' =
      [mkItem tokenText 0 "hello"; mkItem tokenEOF 5 EmptyString] /\
    pos l' = 5 /\ start l' = 5 /\
    forall fuel,
      run_loop (S fuel) (set_state (Some lexText) (scanner "hello" "{{")) =
      Some (Ok (set_state None l')).
Proof.
  apply (lexText_exhausts_input
           (set_state (Some lexText) (scanner "hello" "{{"))).
  - vm_compute. split; discriminate.
  - unfold in_bounds. vm_compute. split; discriminate.
  - reflexivity.
  - vm_compute. reflexivity.
Defined.

(** C3: on an input that starts with the left delimiter, [run] never
    reaches the nil state, whatever the number of iterations it is
    given; [lexText] keeps returning itself without moving the cursor,
    and neither an EOF nor an error token is ever sent.  The same holds
    once [lexText] has scanned up to a left delimiter further in. *)
Theorem run_never_ends_at_left_delimiter :
  (forall fuel, run fuel (scanner "{{ name }}" "{{") = None) /\
  (forall fuel, run fuel (scanner "Hello, {{ name }}" "{{") = None) /\
  (forall l, in_bounds l -> 0 <= start l <= pos l ->
     delimAt l (pos l) = true ->
     forall fuel, run fuel l = None).
Proof.
  assert (Hgen : forall l, in_bounds l -> 0 <= start l <= pos l ->
     delimAt l (pos l) = true -> forall fuel, run fuel l = None).
  { intros l Hb Hs Hd fuel. unfold run. apply run_loop_at_delim.
    - destruct l; assumption.
    - unfold in_bounds in *. destruct l; assumption.
    - unfold delimAt in *. destruct l; assumption.
    - destruct l; reflexivity. }
  split; [|split; [|exact Hgen]].
  - apply Hgen.
    + unfold in_bounds. vm_compute. split; discriminate.
    + vm_compute. split; discriminate.
    + vm_compute. reflexivity.
  - intros [|fuel]; [reflexivity|].
    unfold run.
    rewrite (run_loop_step fuel _
               (mkLexer jinjaCfg "example" "example.jigo"
                  "Hello, {{ name }}" "{{" "}}" (Some lexText) 7 7 1 0
                  [mkItem tokenText 0 "Hello, "]) lexText (Some lexText))
      by (vm_compute; reflexivity).
    apply run_loop_at_delim.
    + vm_compute. split; discriminate.
    + unfold in_bounds. vm_compute. split; discriminate.
    + vm_compute. reflexivity.
    + reflexivity.
Qed.

(** C5: [errorf] sends exactly one token, an error token that carries
    the message and the start of the pending item, and returns the nil
    state; [run] entered with that state stops at once, so no token
    follows the error token. *)
Theorem errorf_ends_scan (msg : string) (l : lexer) :
  exists l',
    errorf msg l = (l', None) /\
    items l' = items l ++ [mkItem tokenError (start l) msg] /\
    pos l' = pos l /\ start l' = start l /\
    forall fuel,
      run_loop fuel (set_state None l') = Some (Ok (set_state None l')) /\
      items (set_state None l') = items l ++ [mkItem tokenError (start l) msg].
Proof.
  exists (send (mkItem tokenError (start l) msg) l).
  repeat split; try (destruct l; reflexivity).
  destruct fuel; destruct l; reflexivity.
Qed.

End LexFacts.

(** ** Integer literals *)

Section StrconvFacts.
Import strconv.
Local Open Scope Z_scope.

Lemma digit_range (c : ascii) (d : Z) : digit c = Some d -> 0 <= d <= 9.
Proof.
  unfold digit.
  destruct (Z.leb_spec 48 (Z.of_N (N_of_ascii c))),
    (Z.leb_spec (Z.of_N (N_of_ascii c)) 57); simpl; try discriminate.
  intros [= <-]. lia.
Qed.

(** One iteration of the loop that neither overflows nor rejects the
    byte. *)
Lemma ParseUint_loop_step (c : ascii) (s : string) (n d : Z) :
  digit c = Some d -> 0 <= n -> n * 10 + d < 2 ^ 64 ->
  ParseUint_loop (String c s) n = ParseUint_loop s (n * 10 + d).
Proof.
  intros Hd Hn Hlt. pose proof (digit_range _ _ Hd) as Hr.
  cbn [ParseUint_loop]. rewrite Hd. cbv zeta.
  rewrite Z.mod_small by lia. unfold maxUint64.
  destruct (Z.leb_spec ((2 ^ 64 - 1) / 10 + 1) n) as [Hge|_].
  - change ((2 ^ 64 - 1) / 10 + 1) with 1844674407370955162 in Hge. lia.
  - destruct (Z.ltb_spec (n * 10 + d) (n * 10)); [lia|].
    destruct (Z.ltb_spec (2 ^ 64 - 1) (n * 10 + d)); [lia|]. reflexivity.
Qed.

(** A number read without error is the 64-bit continuation of the number
    read before. *)
Lemma ParseUint_loop_range (s : string) (n v : Z) :
  0 <= n < 2 ^ 64 -> ParseUint_loop s n = (v, None) -> n <= v < 2 ^ 64.
Proof.
  revert n. induction s as [|c s IH]; intros n Hn; cbn [ParseUint_loop].
  - intros [= <-]. lia.
  - destruct (digit c) as [d|] eqn:Hd; [|discriminate].
    pose proof (digit_range _ _ Hd) as Hr. cbv zeta. unfold maxUint64.
    destruct (Z.leb_spec ((2 ^ 64 - 1) / 10 + 1) n) as [|Hlt]; [discriminate|].
    change ((2 ^ 64 - 1) / 10 + 1) with 1844674407370955162 in Hlt.
    pose proof (Z.mod_pos_bound (n * 10 + d) (2 ^ 64) ltac:(lia)) as Hmod.
    destruct (Z.ltb_spec ((n * 10 + d) mod 2 ^ 64) (n * 10)) as [|Hge];
      [discriminate|].
    destruct (Z.ltb_spec (2 ^ 64 - 1) ((n * 10 + d) mod 2 ^ 64));
      [discriminate|].
    cbn [orb]. intros Hv. apply IH in Hv; lia.
Qed.

(** A range error comes with the greatest 64-bit number. *)
Lemma ParseUint_loop_ErrRange (s : string) (n v : Z) :
  ParseUint_loop s n = (v, Some ErrRange) -> v = maxUint64.
Proof.
  revert n. induction s as [|c s IH]; intros n; cbn [ParseUint_loop];
    [discriminate|].
  destruct (digit c) as [d|]; [|discriminate]. cbv zeta.
  destruct (_ <=? n); [intros [= <-]; reflexivity|].
  destruct (_ || _); [intros [= <-]; reflexivity|]. apply IH.
Qed.

(** A value returned by [ParseInt] without error fits in a signed 64-bit
    integer. *)
Lemma ParseInt_range (s : string) (v : Z) :
  ParseInt s = (v, None) -> - 2 ^ 63 <= v < 2 ^ 63.
Proof.
  unfold ParseInt. destruct s as [|c s]; [discriminate|]. cbv zeta.
  destruct (ParseUint _) as [un [[]|]] eqn:Hun; try discriminate.
  - assert (Hr : un = maxUint64).
    { unfold ParseUint in Hun.
      destruct (if Ascii.eqb c "+" then s else _); [discriminate|].
      apply ParseUint_loop_ErrRange in Hun. assumption. }
    subst un. unfold maxUint64.
    destruct (Ascii.eqb c "-"); cbn; discriminate.
  - assert (Hr : 0 <= un < 2 ^ 64).
    { unfold ParseUint in Hun.
      destruct (if Ascii.eqb c "+" then s else _); [discriminate|].
      apply ParseUint_loop_range in Hun; lia. }
    destruct (Ascii.eqb c "-");
      destruct (Z.leb_spec (2 ^ 63) un), (Z.ltb_spec (2 ^ 63) un);
      cbn; try discriminate; intros [= <-]; lia.
Qed.

Lemma digit_pretty_N_char (x : N) :
  (x < 10)%N -> digit (pretty_N_char x) = Some (Z.of_N x).
Proof.
  intros Hx.
  assert (Hcases : In x [0; 1; 2; 3; 4; 5; 6; 7; 8; 9]%N).
  { destruct x as [|p]; [simpl; auto|].
    do 4 (destruct p as [p|p|]; try (simpl; tauto); try lia). }
  simpl in Hcases.
  repeat (destruct Hcases as [<-|Hcases]; [reflexivity|]).
  contradiction.
Qed.

(** Reading back the digits written by [pretty_N_go]. *)
Lemma ParseUint_loop_pretty_N_go (x : N) (s : string) :
  Z.of_N x < 2 ^ 64 ->
  ParseUint_loop (pretty_N_go x s) 0 = ParseUint_loop s (Z.of_N x).
Proof.
  revert s. induction (N.lt_wf_0 x) as [x _ IH]; intros s Hx.
  destruct (N.eq_dec x 0%N) as [->|Hne].
  - rewrite pretty_N_go_0. reflexivity.
  - rewrite pretty_N_go_step by lia.
    assert (Hdm : Z.of_N x = Z.of_N (x / 10) * 10 + Z.of_N (x mod 10)).
    { rewrite (N.div_mod x 10) at 1 by discriminate. lia. }
    assert (Hm : (x mod 10 < 10)%N) by (apply N.mod_lt; discriminate).
    assert (Hq : Z.of_N (x / 10) < 2 ^ 64).
    { pose proof (N2Z.is_nonneg (x mod 10)). lia. }
    assert (Hlt : (x / 10 < x)%N) by (apply N.div_lt; lia).
    rewrite (IH _ Hlt _ Hq).
    rewrite (ParseUint_loop_step _ _ _ (Z.of_N (x mod 10)));
      [rewrite <- Hdm; reflexivity| |lia|lia].
    apply digit_pretty_N_char. assumption.
Qed.

(** The first byte written by [pretty_N_go] for a positive number is a
    decimal digit. *)
Lemma pretty_N_go_head (x : N) (s : string) :
  (0 < x)%N ->
  exists c rest d, pretty_N_go x s = String c rest /\ digit c = Some d.
Proof.
  revert s. induction (N.lt_wf_0 x) as [x _ IH]; intros s Hx.
  rewrite pretty_N_go_step by assumption.
  destruct (N.eq_dec (x / 10)%N 0%N) as [Hq|Hq].
  - rewrite Hq, pretty_N_go_0. eexists _, _, _. split; [reflexivity|].
    apply digit_pretty_N_char, N.mod_lt. discriminate.
  - apply IH; [apply N.div_lt; lia|apply N.neq_0_lt_0; assumption].
Qed.

Lemma ParseUint_pretty (p : positive) :
  Z.pos p < 2 ^ 64 ->
  exists c rest d,
    pretty (N.pos p) = String c rest /\ digit c = Some d /\
    ParseUint (pretty (N.pos p)) = (Z.pos p, None).
Proof.
  intros Hp. unfold pretty, pretty_N.
  destruct (decide (N.pos p = 0%N)) as [|_]; [discriminate|].
  destruct (pretty_N_go_head (N.pos p) EmptyString) as (c & rest & d & Hs & Hd);
    [lia|].
  exists c, rest, d. repeat split; try assumption.
  unfold ParseUint.
  destruct (pretty_N_go (N.pos p) EmptyString) as [|c' rest'] eqn:E;
    [discriminate|].
  rewrite <- E, ParseUint_loop_pretty_N_go by assumption. reflexivity.
Qed.

(** [ParseInt] reads back what [FormatInt] writes, for every signed
    64-bit integer. *)
Lemma ParseInt_FormatInt (z : Z) :
  - 2 ^ 63 <= z < 2 ^ 63 -> ParseInt (FormatInt z) = (z, None).
Proof.
  intros Hz. destruct z as [|p|p].
  - reflexivity.
  - destruct (ParseUint_pretty p) as (c & rest & d & Hs & Hd & Hu); [lia|].
    change (FormatInt (Z.pos p)) with (pretty (N.pos p)).
    assert (Hc : Ascii.eqb c "-" = false /\ Ascii.eqb c "+" = false).
    { split; apply Ascii.eqb_neq; intros ->; discriminate. }
    destruct Hc as [Hc1 Hc2].
    rewrite Hs in Hu |- *. unfold ParseInt. rewrite Hc1, Hc2, Hu.
    cbn [negb andb].
    destruct (Z.leb_spec (2 ^ 63) (Z.pos p)); [lia|reflexivity].
  - destruct (ParseUint_pretty p) as (c & rest & d & Hs & Hd & Hu); [lia|].
    change (FormatInt (Z.neg p)) with (String "-" (pretty (N.pos p))).
    unfold ParseInt.
    change (Ascii.eqb "-" "-") with true.
    change (Ascii.eqb "-" "+") with false.
    cbv iota. rewrite Hu. cbn [negb andb].
    destruct (Z.ltb_spec (2 ^ 63) (Z.pos p)); [lia|reflexivity].
Qed.

End StrconvFacts.

(** ** Rendering *)

Section AstFacts.
Context `{GoFloat}.
Import Ast.
Local Open Scope Z_scope.

Lemma append_nil_r (s : string) : s +:+ EmptyString = s.
Proof.
  induction s as [|c s IH]; [reflexivity|].
  change (String c (s +:+ EmptyString) = String c s). congruence.
Qed.

Lemma append_assoc (a b c : string) : (a +:+ b) +:+ c = a +:+ b +:+ c.
Proof.
  induction a as [|x a IH]; [reflexivity|].
  change (String x ((a +:+ b) +:+ c) = String x (a +:+ b +:+ c)).
  congruence.
Qed.

(** The buffer loop of [ListNode.String] and [IfBlockNode.String]
    writes the renderings one after the other. *)
Lemma write_loop (pr : option Node -> string) (ns : list (option Node))
    (b : string) :
  fold_left (fun b n => b +:+ pr n) ns b =
  b +:+ String.concat EmptyString (map pr ns).
Proof.
  revert b. induction ns as [|n ns IH]; intros b.
  - simpl. rewrite append_nil_r. reflexivity.
  - cbn [fold_left map]. rewrite IH, append_assoc. f_equal.
    destruct ns as [|n' ns]; simpl; [rewrite append_nil_r|]; reflexivity.
Qed.

(** C8: [ListNode.String] is the concatenation, in order, of what its
    elements render as: the elements' own [String] results wherever the
    element is a node whose [String] returns.  A list node without
    elements renders as the empty string. *)
Theorem ListNode_String_concat (t : NodeType) (p : Pos)
    (Nodes : list (option Node)) :
  Node_String (ListNode t p Nodes) =
    Ok (String.concat EmptyString (map (printArg Node_String verb_v) Nodes))
  /\
  (forall n s, Node_String n = Ok s ->
     printArg Node_String verb_v (Some n) = s) /\
  Node_String (ListNode t p []) = Ok EmptyString.
Proof.
  split; [|split].
  - cbn [Node_String]. rewrite write_loop. reflexivity.
  - intros n s Hs. unfold printArg. rewrite Hs. reflexivity.
  - reflexivity.
Qed.

(** The copies made by the loop of a [Copy] come after what the
    sequence held before, one for each element. *)
Lemma appendCopies_app {A : Type} (copy : A -> result A)
    (elems acc out : list (option A)) :
  appendCopies copy elems acc = Ok out ->
  exists copies,
    out = acc ++ copies /\ length copies = length elems /\
    Forall2 (fun e c => exists x y, e = Some x /\ c = Some y /\ copy x = Ok y)
      elems copies.
Proof.
  revert acc. induction elems as [|e elems IH]; intros acc Hout.
  - injection Hout as <-. exists []. rewrite app_nil_r. auto.
  - cbn [appendCopies] in Hout.
    destruct e as [x|]; [|discriminate]. cbn [callCopy] in Hout.
    destruct (copy x) as [y|] eqn:Hy; [|discriminate].
    apply IH in Hout as (copies & -> & Hlen & Hall).
    exists (Some y :: copies). rewrite <- app_assoc. cbn.
    repeat split; [cbn; lia|]. constructor; eauto.
Qed.

(** Whenever [IfBlockNode.Copy] returns, the copy holds one nil for
    every conditional of the original, followed by the copies. *)
Lemma IfBlockNode_Copy_Conditionals (t : NodeType) (p : Pos)
    (cs : list (option Node)) (e : option Node) (n' : Node) :
  Copy (IfBlockNode t p cs e) = Ok n' ->
  exists copies e',
    n' = IfBlockNode NodeIf p (replicate (length cs) None ++ copies) e' /\
    length copies = length cs.
Proof.
  cbn [Copy]. intros Hc.
  destruct (appendCopies Copy cs (replicate (length cs) None))
    as [out|] eqn:Hout; [|discriminate].
  apply appendCopies_app in Hout as (copies & -> & Hlen & _).
  cbn in Hc.
  destruct e as [e|]; cbn in Hc.
  - destruct (Copy e) as [e'|]; cbn in Hc; [|discriminate].
    injection Hc as <-. eauto.
  - injection Hc as <-. eauto.
Qed.

(** [fmt] writes [<nil>] for each nil element. *)
Lemma write_loop_nils (pr : option Node -> string) (k : nat)
    (ns : list (option Node)) (b : string) :
  pr None = nilAngleString ->
  fold_left (fun b n => b +:+ pr n) (replicate k None ++ ns) b =
  fold_left (fun b n => b +:+ pr n) ns
    (b +:+ String.concat EmptyString (replicate k nilAngleString)).
Proof.
  intros Hnil. rewrite fold_left_app. f_equal. rewrite write_loop.
  do 2 f_equal.
  induction k as [|k IH]; cbn [replicate map]; [|rewrite Hnil, IH];
    reflexivity.
Qed.

(** C1: the rendering of a copy is not always the rendering of the
    original.  For an if-block with one conditional, [Copy] returns a
    block with two conditionals, the first of them nil, and the copy
    renders with a leading [<nil>]. *)
Theorem IfBlockNode_Copy_changes_rendering :
  let c := ConditionalNode NodeIf 3 (Some (LookupNode NodeLookup 6 "x"))
             (Some (TextNode NodeText 10 "hi")) in
  let n := IfBlockNode NodeIf 0 [Some c] None in
  Node_String n = Ok "{% if x %}hi{% endif %}" /\
  Copy n = Ok (IfBlockNode NodeIf 0 [None; Some c] None) /\
  (Copy n ≫= Node_String) = Ok "<nil>{% if x %}hi{% endif %}".
Proof. repeat split. Qed.

(** C9: for a boolean literal [newLiteral] always returns a [BoolNode],
    whose value is true exactly when the lexeme is the string [true]. *)
Theorem newLiteral_bool (pos : Pos) (lexeme : string) :
  exists v,
    newLiteral pos tokenBool lexeme = Ok (BoolNode NodeBool pos v) /\
    (v = true <-> lexeme = "true").
Proof.
  cbn [newLiteral]. destruct (decide (lexeme = "true")) as [Heq|Hne].
  - exists true. tauto.
  - exists false. split; [reflexivity|]. split; [discriminate|tauto].
Qed.

(** C6: for an integer literal [newLiteral] returns an [IntegerNode]
    with the value [ParseInt] reads from the lexeme in base 10, a value
    that fits in 64 signed bits, and it panics when [ParseInt] reports
    an error; for a float literal it returns a [FloatNode] with the value
    [ParseFloat] reads, and it panics when [ParseFloat] reports an error.
    In particular the decimal form of every signed 64-bit integer is
    read back as that integer. *)
Theorem newLiteral_numeric (pos : Pos) (lexeme : string) :
  match strconv.ParseInt lexeme with
  | (v, None) =>
      newLiteral pos tokenInteger lexeme = Ok (IntegerNode NodeInteger pos v)
      /\ - 2 ^ 63 <= v < 2 ^ 63
  | (_, Some err) => newLiteral pos tokenInteger lexeme = Panic
  end /\
  match ParseFloat lexeme with
  | Some v =>
      newLiteral pos tokenFloat lexeme = Ok (FloatNode NodeFloat pos v)
  | None => newLiteral pos tokenFloat lexeme = Panic
  end /\
  (forall z, - 2 ^ 63 <= z < 2 ^ 63 ->
     newLiteral pos tokenInteger (strconv.FormatInt z) =
     Ok (IntegerNode NodeInteger pos z)).
Proof.
  split; [|split].
  - cbn [newLiteral].
    destruct (strconv.ParseInt lexeme) as [v [err|]] eqn:Hv; [reflexivity|].
    split; [reflexivity|]. exact (ParseInt_range _ _ Hv).
  - cbn [newLiteral]. destruct (ParseFloat lexeme); reflexivity.
  - intros z Hz. cbn [newLiteral].
    rewrite ParseInt_FormatInt by assumption. reflexivity.
Qed.

(** Lexemes that are not decimal integers of 64 bits make [newLiteral]
    panic; a sign and leading zeros are read. *)
Lemma newLiteral_integer_examples (pos : Pos) :
  newLiteral pos tokenInteger "42" = Ok (IntegerNode NodeInteger pos 42) /\
  newLiteral pos tokenInteger "-7" = Ok (IntegerNode NodeInteger pos (-7)) /\
  newLiteral pos tokenInteger "+007" = Ok (IntegerNode NodeInteger pos 7) /\
  newLiteral pos tokenInteger "9223372036854775807" =
    Ok (IntegerNode NodeInteger pos 9223372036854775807) /\
  newLiteral pos tokenInteger "9223372036854775808" = Panic /\
  newLiteral pos tokenInteger "-9223372036854775808" =
    Ok (IntegerNode NodeInteger pos (-9223372036854775808)) /\
  newLiteral pos tokenInteger "-9223372036854775809" = Panic /\
  newLiteral pos tokenInteger "0x1F" = Panic /\
  newLiteral pos tokenInteger "1_000" = Panic /\
  newLiteral pos tokenInteger "12a" = Panic /\
  newLiteral pos tokenInteger "-" = Panic /\
  newLiteral pos tokenInteger EmptyString = Panic /\
  newLiteral pos tokenName "x" = Panic.
Proof. repeat split. Qed.

(** Lexemes that differ from [true] in case or content. *)
Lemma newLiteral_bool_examples (pos : Pos) :
  newLiteral pos tokenBool "true" = Ok (BoolNode NodeBool pos true) /\
  newLiteral pos tokenBool "True" = Ok (BoolNode NodeBool pos false) /\
  newLiteral pos tokenBool "false" = Ok (BoolNode NodeBool pos false) /\
  newLiteral pos tokenBool "yes" = Ok (BoolNode NodeBool pos false) /\
  newLiteral pos tokenBool EmptyString = Ok (BoolNode NodeBool pos false).
Proof. repeat split. Qed.

End AstFacts.

(** ** Copies that render as the original *)

Section CopyFacts.
Context `{GoFloat}.
Import Ast AstSpec.
Local Open Scope Z_scope.

(** Induction over the nodes that [Copy] copies in turn. *)
Section CopyInduction.
Variable P : Node -> Prop.

Definition P_child (o : option Node) : Prop :=
  match o with
  | Some n => P n
  | None => True
  end.

Hypothesis H_List : forall t p Nodes,
  Forall P_child Nodes -> P (ListNode t p Nodes).
Hypothesis H_Set : forall t p lhs rhs,
  P_child lhs -> P_child rhs -> P (SetNode t p lhs rhs).
Hypothesis H_Conditional : forall t p Guard Body,
  P_child Guard -> P_child Body -> P (ConditionalNode t p Guard Body).
Hypothesis H_IfBlock : forall t p Conditionals Else,
  Forall P_child Conditionals -> P_child Else ->
  P (IfBlockNode t p Conditionals Else).
Hypothesis H_For : forall t p ForExpr InExpr Body,
  P_child ForExpr -> P_child InExpr -> P_child Body ->
  P (ForNode t p ForExpr InExpr Body).
Hypothesis H_Block : forall t p Name Body,
  P_child Body -> P (BlockNode t p Name Body).
Hypothesis H_shallow : forall n,
  match n with
  | ListNode _ _ _ | SetNode _ _ _ _ | ConditionalNode _ _ _ _
  | IfBlockNode _ _ _ _ | ForNode _ _ _ _ _ | BlockNode _ _ _ _ => True
  | _ => P n
  end.

Fixpoint copy_induction (n : Node) : P n :=
  let child (o : option Node) : P_child o :=
    match o with
    | Some n' => copy_induction n'
    | None => I
    end in
  let children :=
    fix children (l : list (option Node)) : Forall P_child l :=
      match l with
      | [] => List.Forall_nil _
      | o :: l' => @List.Forall_cons _ _ o l' (child o) (children l')
      end in
  match n as n0 return P n0 with
  | ListNode t p Nodes => H_List t p Nodes (children Nodes)
  | SetNode t p lhs rhs => H_Set t p lhs rhs (child lhs) (child rhs)
  | ConditionalNode t p Guard Body =>
      H_Conditional t p Guard Body (child Guard) (child Body)
  | IfBlockNode t p Conditionals Else =>
      H_IfBlock t p Conditionals Else (children Conditionals) (child Else)
  | ForNode t p ForExpr InExpr Body =>
      H_For t p ForExpr InExpr Body (child ForExpr) (child InExpr)
        (child Body)
  | BlockNode t p Name Body => H_Block t p Name Body (child Body)
  | n' => H_shallow n'
  end.
End CopyInduction.

Lemma result_bind_Ok {A B : Type} (r : result A) (k : A -> result B) (b : B) :
  r ≫= k = Ok b -> exists a, r = Ok a /\ k a = Ok b.
Proof. destruct r as [a|]; cbn; [eauto | discriminate]. Qed.

Lemma callCopy_Ok {A B : Type} (copy : A -> result B) (o : option A) (b : B) :
  callCopy copy o = Ok b -> exists a, o = Some a /\ copy a = Ok b.
Proof. destruct o as [a|]; cbn; [eauto | discriminate]. Qed.

(** [fmt] writes the same for two operands whose [String] agree. *)
Lemma printArg_agree (c : verb) (n n' : Node) :
  Node_String n' = Node_String n ->
  printArg Node_String c (Some n') = printArg Node_String c (Some n).
Proof. intros Heq. unfold printArg. rewrite Heq. reflexivity. Qed.

(** The property proved by induction: a copy renders as the original. *)
Definition renders_alike (n : Node) : Prop :=
  forall n', ifFree n = true -> Copy n = Ok n' ->
    Node_String n' = Node_String n.

Lemma child_renders_alike (c : verb) (o : option Node) (n' : Node) :
  P_child renders_alike o -> ifFree_child o = true ->
  callCopy Copy o = Ok n' ->
  printArg Node_String c (Some n') = printArg Node_String c o.
Proof.
  intros IH Hfree Hc. apply callCopy_Ok in Hc as (n & -> & Hc).
  apply printArg_agree, IH; assumption.
Qed.

Lemma copies_render_alike (c : verb) (elems copies : list (option Node)) :
  Forall (P_child renders_alike) elems ->
  forallb ifFree_child elems = true ->
  Forall2 (fun e c => exists x y, e = Some x /\ c = Some y /\ Copy x = Ok y)
    elems copies ->
  map (printArg Node_String c) copies = map (printArg Node_String c) elems.
Proof.
  intros IH Hfree Hall. revert IH Hfree.
  induction Hall as [|e c' elems copies (x & y & -> & -> & Hxy) _ IHall];
    intros IH Hfree; [reflexivity|].
  apply Forall_cons in IH as [IHx IH].
  cbn [forallb] in Hfree. apply andb_true_iff in Hfree as [Hx Hfree].
  cbn [map]. f_equal; [|apply IHall; assumption].
  apply printArg_agree, IHx; assumption.
Qed.

(** Where no if-block with conditionals is copied, a copy renders as the
    original does. *)
Theorem Copy_preserves_String (n n' : Node) :
  ifFree n = true -> Copy n = Ok n' -> Node_String n' = Node_String n.
Proof.
  revert n'. change (renders_alike n).
  apply copy_induction; clear n; unfold renders_alike.
  - (* ListNode *)
    intros t p Nodes IH n' Hfree Hc. cbn [Copy] in Hc.
    apply result_bind_Ok in Hc as (nodes & Happ & [= <-]).
    apply appendCopies_app in Happ as (copies & -> & _ & Hall).
    cbn [app Node_String]. rewrite !write_loop.
    rewrite (copies_render_alike verb_v Nodes copies IH Hfree Hall).
    reflexivity.
  - (* SetNode *)
    intros t p lhs rhs IHl IHr n' Hfree Hc. cbn [Copy] in Hc.
    cbn [ifFree] in Hfree. apply andb_true_iff in Hfree as [Hl Hr].
    apply result_bind_Ok in Hc as (l' & Hcl & Hc).
    apply result_bind_Ok in Hc as (r' & Hcr & [= <-]).
    cbn [Node_String].
    rewrite (child_renders_alike verb_s lhs l' IHl Hl Hcl).
    rewrite (child_renders_alike verb_s rhs r' IHr Hr Hcr).
    reflexivity.
  - (* ConditionalNode *)
    intros t p Guard Body IHg IHb n' Hfree Hc. cbn [Copy] in Hc.
    cbn [ifFree] in Hfree. apply andb_true_iff in Hfree as [Hg Hb].
    apply result_bind_Ok in Hc as (g' & Hcg & Hc).
    apply result_bind_Ok in Hc as (b' & Hcb & [= <-]).
    cbn [Node_String].
    rewrite (child_renders_alike verb_s Guard g' IHg Hg Hcg).
    rewrite (child_renders_alike verb_v Body b' IHb Hb Hcb).
    reflexivity.
  - (* IfBlockNode *)
    intros t p Conditionals Else _ IHe n' Hfree Hc.
    cbn [ifFree] in Hfree.
    destruct Conditionals as [|c cs]; [|discriminate].
    cbn [Copy appendCopies length replicate] in Hc.
    apply result_bind_Ok in Hc as (conds & [= <-] & Hc).
    apply result_bind_Ok in Hc as (e' & He & [= <-]).
    destruct Else as [e|].
    + apply result_bind_Ok in He as (e0 & He & [= <-]).
      cbn [Node_String fold_left].
      rewrite (printArg_agree verb_s e e0); [reflexivity|].
      apply IHe; assumption.
    + injection He as <-. reflexivity.
  - (* ForNode *)
    intros t p ForExpr InExpr Body IHf IHi IHb n' Hfree Hc. cbn [Copy] in Hc.
    cbn [ifFree] in Hfree. apply andb_true_iff in Hfree as [Hfree Hb].
    apply andb_true_iff in Hfree as [Hf Hi].
    apply result_bind_Ok in Hc as (f' & Hcf & Hc).
    apply result_bind_Ok in Hc as (i' & Hci & Hc).
    apply result_bind_Ok in Hc as (b' & Hcb & [= <-]).
    cbn [Node_String].
    rewrite (child_renders_alike verb_s ForExpr f' IHf Hf Hcf).
    rewrite (child_renders_alike verb_s InExpr i' IHi Hi Hci).
    rewrite (child_renders_alike verb_s Body b' IHb Hb Hcb).
    reflexivity.
  - (* BlockNode *)
    intros t p Name Body IHb n' Hfree Hc. cbn [Copy] in Hc.
    cbn [ifFree] in Hfree.
    apply result_bind_Ok in Hc as (b' & Hcb & [= <-]).
    cbn [Node_String].
    rewrite (child_renders_alike verb_v Body b' IHb Hfree Hcb).
    reflexivity.
  - (* nodes copied without their children *)
    intros n. destruct n as [| | | | | | | | | | | | m | | | | | |];
      try exact I; intros n' _ Hc; cbn [Copy] in Hc;
      try (injection Hc as <-; reflexivity);
      try (apply result_bind_Ok in Hc as (q & _ & [= <-]); reflexivity).
    + (* MapExpr *)
      apply result_bind_Ok in Hc as (elems & Happ & [= <-]).
      apply appendCopies_app in Happ as (copies & -> & Hlen & Hall).
      cbn [app Node_String]. rewrite Hlen. clear Hlen. do 2 f_equal.
      generalize (Z.of_nat (length Elems)) 0 "{"%string.
      induction Hall as [|e c es cs (x & y & -> & -> & Hxy) _ IH];
        intros len i b; [reflexivity|].
      cbn [writeElems]. rewrite IH. do 3 f_equal.
      unfold printElem. destruct x as [tx px k v]. cbn in Hxy.
      apply result_bind_Ok in Hxy as (q & _ & [= <-]). reflexivity.
    + (* MapElem *)
      destruct m as [tm pm k v]. cbn in Hc.
      apply result_bind_Ok in Hc as (m' & Hm & [= <-]).
      apply result_bind_Ok in Hm as (q & _ & [= <-]). reflexivity.
Qed.

Lemma all_render_alike (elems : list (option Node)) :
  Forall (P_child renders_alike) elems.
Proof.
  apply Forall_forall. intros [n|] _; cbn; [|exact I].
  intros n'. apply Copy_preserves_String.
Qed.

Lemma append_length (a b : string) :
  String.length (a +:+ b) = (String.length a + String.length b)%nat.
Proof.
  induction a as [|c a IH]; [reflexivity|].
  change (S (String.length (a +:+ b)) =
          S (String.length a + String.length b)).
  congruence.
Qed.

(** X4: the copy of an if-block renders as the original does, after one
    [<nil>] for every conditional of the original: the two renderings
    differ as soon as there is a conditional. *)
Theorem IfBlockNode_Copy_String (t : NodeType) (p : Pos)
    (cs : list (option Node)) (e : option Node) (n' : Node) :
  forallb ifFree_child cs = true -> ifFree_child e = true ->
  Copy (IfBlockNode t p cs e) = Ok n' ->
  exists s,
    Node_String (IfBlockNode t p cs e) = Ok s /\
    Node_String n' =
      Ok (String.concat EmptyString (replicate (length cs) nilAngleString)
          +:+ s) /\
    (cs <> [] -> Node_String n' <> Node_String (IfBlockNode t p cs e)).
Proof.
  intros Hcs He Hc. cbn [Copy] in Hc.
  apply result_bind_Ok in Hc as (conds & Happ & Hc).
  apply result_bind_Ok in Hc as (e' & Hce & [= <-]).
  apply appendCopies_app in Happ as (copies & -> & _ & Hall).
  pose proof (copies_render_alike verb_v cs copies (all_render_alike cs)
                Hcs Hall) as Hmap.
  set (nils := String.concat EmptyString
                 (replicate (length cs) nilAngleString)).
  assert (Hloop :
    fold_left (fun b c => b +:+ printArg Node_String verb_v c)
      (replicate (length cs) None ++ copies) EmptyString =
    nils +:+
    fold_left (fun b c => b +:+ printArg Node_String verb_v c) cs
      EmptyString).
  { rewrite write_loop_nils by reflexivity. rewrite !write_loop, Hmap.
    reflexivity. }
  assert (Hrender : exists s,
    Node_String (IfBlockNode t p cs e) = Ok s /\
    Node_String (IfBlockNode NodeIf p (replicate (length cs) None ++ copies) e')
    = Ok (nils +:+ s)).
  { cbn [Node_String]. rewrite Hloop.
    destruct e as [e|].
    - apply result_bind_Ok in Hce as (e0 & Hce & [= <-]).
      rewrite (printArg_agree verb_s e e0)
        by (apply Copy_preserves_String; assumption).
      eexists. split; [reflexivity|]. rewrite !append_assoc. reflexivity.
    - injection Hce as <-.
      eexists. split; [reflexivity|]. rewrite !append_assoc. reflexivity. }
  destruct Hrender as (s & Hs & Hs').
  exists s. split; [assumption|]. split; [assumption|].
  intros Hne. rewrite Hs, Hs'. intros [= Heq].
  apply (f_equal String.length) in Heq. rewrite append_length in Heq.
  destruct cs as [|c cs]; [contradiction|].
  subst nils. cbn [length replicate] in Heq.
  assert (Hpos : (0 < String.length
                    (String.concat EmptyString
                       (nilAngleString :: replicate (length cs) nilAngleString)))%nat).
  { cbn [String.concat]. destruct (replicate (length cs) nilAngleString);
      [cbn; lia|]. rewrite append_length. cbn. lia. }
  lia.
Qed.

End CopyFacts.

(** ** Sharing between a node and its copy *)

Section StoreFacts.
Context `{GoFloat}.
Import Store.
Local Open Scope Z_scope.

(** [VarNode.Copy] allocates one struct and stores the child pointer of
    the original in it. *)
Lemma VarNode_Copy_shallow (fuel : nat) (h : heap) (r : ref)
    (t : NodeType) (p : Pos) (child : option ref) :
  h !! r = Some (VarNode t p child) ->
  Copy (S fuel) r h = Some (Ok (length h, h ++ [VarNode t p child])).
Proof.
  intros Hr. cbn [Copy]. unfold bind, deref. rewrite Hr. reflexivity.
Qed.

(** [AddExpr.Copy], [MulExpr.Copy] and [MapElem.Copy] go through the
    constructors, which store the operand pointers they are given. *)
Lemma AddExpr_Copy_shallow (fuel : nat) (h : heap) (r l : ref)
    (t : NodeType) (p : Pos) (rhs : option ref) (op : item) (c : cell) :
  h !! r = Some (AddExpr t p (Some l) rhs op) -> h !! l = Some c ->
  Copy (S fuel) r h =
  Some (Ok (length h, h ++ [AddExpr NodeAdd (Position c) (Some l) rhs op])).
Proof.
  intros Hr Hl. cbn [Copy]. unfold bind, deref, Position_of, bind, deref.
  rewrite Hr, Hl. reflexivity.
Qed.

Lemma MulExpr_Copy_shallow (fuel : nat) (h : heap) (r l : ref)
    (t : NodeType) (p : Pos) (rhs : option ref) (op : item) (c : cell) :
  h !! r = Some (MulExpr t p (Some l) rhs op) -> h !! l = Some c ->
  Copy (S fuel) r h =
  Some (Ok (length h, h ++ [MulExpr NodeMul (Position c) (Some l) rhs op])).
Proof.
  intros Hr Hl. cbn [Copy]. unfold bind, deref, Position_of, bind, deref.
  rewrite Hr, Hl. reflexivity.
Qed.

Lemma MapElem_Copy_shallow (fuel : nat) (h : heap) (r k : ref)
    (t : NodeType) (p : Pos) (value : option ref) (c : cell) :
  h !! r = Some (MapElem t p (Some k) value) -> h !! k = Some c ->
  Copy (S fuel) r h =
  Some (Ok (length h, h ++ [MapElem NodeMapElem (Position c) (Some k) value])).
Proof.
  intros Hr Hk. cbn [Copy]. unfold bind, deref, Position_of, bind, deref.
  rewrite Hr, Hk. reflexivity.
Qed.

(** C2: a copy can share children with the original.  In the heap
    [varHeap] the print node at address 1 has the lookup node at address
    0 as its child.  Its copy is one new struct, at address 2, whose
    child is that same address 0; renaming the lookup node reached
    through the copy changes what the original renders.  The copies of
    [AddExpr], [MulExpr] and [MapElem] share both operands in the same
    way. *)
Theorem Copy_shares_children :
  (forall fuel,
     Copy (S fuel) 1%nat varHeap =
     Some (Ok (2%nat, varHeap ++ [VarNode NodeVar 0 (Some 0%nat)]))) /\
  render 2 (varHeap ++ [VarNode NodeVar 0 (Some 0%nat)]) 1%nat =
    Some (Ok "{{ x }}") /\
  render 2 (<[0%nat := LookupNode NodeLookup 3 "y"]>
              (varHeap ++ [VarNode NodeVar 0 (Some 0%nat)])) 2%nat =
    Some (Ok "{{ y }}") /\
  render 2 (<[0%nat := LookupNode NodeLookup 3 "y"]>
              (varHeap ++ [VarNode NodeVar 0 (Some 0%nat)])) 1%nat =
    Some (Ok "{{ y }}") /\
  (forall fuel,
     Copy (S fuel) 2%nat addHeap =
     Some (Ok (5%nat,
               addHeap ++ [AddExpr NodeAdd 0 (Some 0%nat) (Some 1%nat)
                             (mkItem tokenAdd 2 "+")]))) /\
  (forall fuel,
     Copy (S fuel) 3%nat addHeap =
     Some (Ok (5%nat,
               addHeap ++ [MulExpr NodeMul 0 (Some 0%nat) (Some 1%nat)
                             (mkItem tokenMul 2 "*")]))) /\
  (forall fuel,
     Copy (S fuel) 4%nat addHeap =
     Some (Ok (5%nat,
               addHeap ++ [MapElem NodeMapElem 0 (Some 0%nat)
                             (Some 1%nat)]))).
Proof.
  split; [|split; [|split; [|split; [|split; [|split]]]]]; intros.
  - apply VarNode_Copy_shallow. reflexivity.
  - vm_compute. reflexivity.
  - vm_compute. reflexivity.
  - vm_compute. reflexivity.
  - apply (AddExpr_Copy_shallow fuel addHeap 2%nat 0%nat NodeAdd 0
             (Some 1%nat) _ (LookupNode NodeLookup 0 "a")); reflexivity.
  - apply (MulExpr_Copy_shallow fuel addHeap 3%nat 0%nat NodeMul 0
             (Some 1%nat) _ (LookupNode NodeLookup 0 "a")); reflexivity.
  - apply (MapElem_Copy_shallow fuel addHeap 4%nat 0%nat NodeMapElem 0
             (Some 1%nat) (LookupNode NodeLookup 0 "a")); reflexivity.
Qed.

(** On the heap as on the tree: the copy of the if-block of [ifHeap] is
    the tree that [Ast.Copy] returns for the tree of the original, and it
    renders with the leading [<nil>]. *)
Lemma Copy_on_ifHeap :
  exists h,
    Copy 3 3%nat ifHeap = Some (Ok (4%nat, h)) /\
    (forall a c, ifHeap !! a = Some c -> h !! a = Some c) /\
    (load 3 ifHeap 3%nat ≫= fun t => Some (Ast.Copy t)) =
      (load 3 h 4%nat ≫= fun t => Some (Ok t)) /\
    render 3 ifHeap 3%nat = Some (Ok "{% if x %}hi{% endif %}") /\
    render 3 h 4%nat = Some (Ok "<nil>{% if x %}hi{% endif %}").
Proof.
  eexists. split; [vm_compute; reflexivity|].
  split; [|split; [|split]]; try (vm_compute; reflexivity).
  intros a c Ha.
  do 4 (destruct a as [|a]; [injection Ha as <-; reflexivity|]).
  discriminate.
Qed.

(** The two models of [Copy] agree at every address of [sampleHeap]:
    copying on the heap and reading the copy back gives the tree, or the
    panic, that copying the tree gives. *)
Lemma Copy_agrees_on_sampleHeap :
  Forall (fun r => copy_as_tree 8 sampleHeap r = tree_copy 8 sampleHeap r)
    (seq 0 (length sampleHeap)).
Proof.
  let l := eval vm_compute in (seq 0 (length sampleHeap)) in
  change (seq 0 (length sampleHeap)) with l.
  repeat (apply List.Forall_cons; [vm_compute; reflexivity|]).
  apply List.Forall_nil.
Qed.

End StoreFacts.

(** ** The context stack *)

Section ContextFacts.
Context {Value : Type}.
Import Context.
Implicit Types (s : list (Context.Context Value))
  (c : Context.Context Value).

Lemma scan_prefix s (extra : list (Context.Context Value)) (i : nat)
    (name : string) :
  i <= length s -> scan (s ++ extra) i name = scan s i name.
Proof.
  induction i as [|i IH]; intros Hi; [reflexivity|].
  cbn [scan]. rewrite lookup_app_l by lia. rewrite IH by lia. reflexivity.
Qed.

(** [scan] finds the value of the layer with the greatest index below
    [n] that has the name. *)
Lemma scan_Some s (n : nat) (name : string) (v : Value) :
  scan s n name = Some v <->
  exists i c,
    i < n /\ s !! i = Some c /\ lookup c name = Some v /\
    forall j c', i < j < n -> s !! j = Some c' -> lookup c' name = None.
Proof.
  induction n as [|n IH]; cbn [scan].
  - split; [discriminate|]. intros (i & _ & Hi & _). lia.
  - destruct (s !! n) as [c|] eqn:Hc.
    + destruct (lookup c name) as [v'|] eqn:Hv.
      * split.
        -- intros [= ->]. exists n, c. repeat split; auto. intros; lia.
        -- intros (i & c' & Hi & Hci & Hvi & Hlater).
           destruct (decide (i = n)) as [->|Hne]; [congruence|].
           rewrite (Hlater n c) in Hv; [discriminate|lia|assumption].
      * rewrite IH. split.
        -- intros (i & c' & Hi & Hci & Hvi & Hlater).
           exists i, c'. repeat split; auto.
           intros j c'' Hj Hcj.
           destruct (decide (j = n)) as [->|Hne]; [congruence|].
           apply (Hlater j); [lia|assumption].
        -- intros (i & c' & Hi & Hci & Hvi & Hlater).
           destruct (decide (i = n)) as [->|Hne]; [congruence|].
           exists i, c'. repeat split; auto; [lia|].
           intros j c'' Hj. apply Hlater. lia.
    + rewrite IH. split.
      * intros (i & c' & Hi & Hci & Hvi & Hlater).
        exists i, c'. repeat split; auto.
        intros j c'' Hj Hcj.
        destruct (decide (j = n)) as [->|Hne]; [congruence|].
        apply (Hlater j); [lia|assumption].
      * intros (i & c' & Hi & Hci & Hvi & Hlater).
        destruct (decide (i = n)) as [->|Hne]; [congruence|].
        exists i, c'. repeat split; auto; [lia|].
        intros j c'' Hj. apply Hlater. lia.
Qed.

Lemma scan_None s (n : nat) (name : string) :
  scan s n name = None <->
  forall i c, i < n -> s !! i = Some c -> lookup c name = None.
Proof.
  induction n as [|n IH]; cbn [scan].
  - split; [intros; lia|reflexivity].
  - destruct (s !! n) as [c|] eqn:Hc.
    + destruct (lookup c name) as [v|] eqn:Hv.
      * split; [discriminate|]. intros Hall.
        rewrite (Hall n c) in Hv; [discriminate|lia|assumption].
      * rewrite IH. split; intros Hall i c' Hi Hci.
        -- destruct (decide (i = n)) as [->|Hne]; [congruence|].
           apply (Hall i); [lia|assumption].
        -- apply (Hall i); [lia|assumption].
    + rewrite IH. split; intros Hall i c' Hi Hci.
      * destruct (decide (i = n)) as [->|Hne]; [congruence|].
        apply (Hall i); [lia|assumption].
      * apply (Hall i); [lia|assumption].
Qed.

(** C4: [lookup] on the stack returns the value of the most recently
    pushed layer that has the name: a layer pushed later shadows the
    earlier ones, a layer without the name lets the earlier ones through,
    and the name is not found exactly when no layer has it. *)
Theorem stack_lookup_shadowing :
  (forall s c name,
     stack_lookup (push c s) name =
     match lookup c name with
     | Some v => Some v
     | None => stack_lookup s name
     end) /\
  (forall s name v,
     stack_lookup s name = Some v <->
     exists i c,
       s !! i = Some c /\ lookup c name = Some v /\
       forall j c', i < j -> s !! j = Some c' -> lookup c' name = None) /\
  (forall s name,
     stack_lookup s name = None <->
     forall c, c ∈ s -> lookup c name = None).
Proof.
  split; [|split].
  - intros s c name. unfold stack_lookup, push.
    rewrite length_app, Nat.add_1_r. cbn [scan].
    rewrite lookup_app_r, Nat.sub_diag by lia. cbn [lookup].
    change ([c] !! 0) with (Some c).
    rewrite scan_prefix by lia. reflexivity.
  - intros s name v. unfold stack_lookup. rewrite scan_Some. split.
    + intros (i & c & Hi & Hc & Hv & Hlater). exists i, c.
      repeat split; auto. intros j c' Hj Hcj.
      apply (Hlater j); [|assumption].
      apply lookup_lt_Some in Hcj. lia.
    + intros (i & c & Hc & Hv & Hlater). exists i, c.
      repeat split; auto; [eapply lookup_lt_Some; eassumption|].
      intros j c' Hj. apply Hlater. lia.
  - intros s name. unfold stack_lookup. rewrite scan_None. split.
    + intros Hall c Hin. apply list_elem_of_lookup in Hin as [i Hi].
      apply (Hall i); [eapply lookup_lt_Some; eassumption|assumption].
    + intros Hall i c _ Hc. apply Hall.
      apply list_elem_of_lookup. eauto.
Qed.

End ContextFacts.

(** The lookups of [TestMapMulti], and a third layer that shadows. *)
Lemma TestMapMulti :
  let ctx := Context.push Context.person [] in
  let ctx2 := Context.push Context.counters ctx in
  let ctx3 := Context.push Context.alias ctx2 in
  Context.lookup Context.person "name" = Some (Context.HostString "Jason") /\
  Context.lookup Context.person "Age" = Some (Context.HostString "32") /\
  Context.stack_lookup ctx "name" = Some (Context.HostString "Jason") /\
  Context.stack_lookup ctx "Age" = Some (Context.HostString "32") /\
  Context.stack_lookup ctx "Foo" = None /\
  Context.stack_lookup ctx2 "name" = Some (Context.HostString "Jason") /\
  Context.stack_lookup ctx2 "Age" = Some (Context.HostString "32") /\
  Context.stack_lookup ctx2 "Foo" = Some (Context.HostInt 1) /\
  Context.stack_lookup ctx2 "Bar" = None /\
  Context.stack_lookup ctx3 "name" = Some (Context.HostString "J.") /\
  Context.stack_lookup ctx3 "Foo" = Some (Context.HostInt 2) /\
  Context.stack_lookup ctx3 "Age" = Some (Context.HostString "32").
Proof. vm_compute. repeat split. Qed.

(** * Further properties *)

(** ** When rendering and copying panic *)

Section PanicFacts.
Context `{GoFloat}.
Import Ast AstSpec.
Local Open Scope Z_scope.

Lemma MapElem_String_returns (m : MapElem) : exists s, MapElem_String m = Ok s.
Proof. destruct m. cbn. eauto. Qed.

(** X1: [String] panics exactly on a print node without an expression, also
    at the end of a chain of print nodes; on every other node it
    returns, whatever nil the node holds. *)
Theorem String_panics_iff (n : Node) :
  Node_String n = Panic <-> unfilled n = true.
Proof.
  revert n. fix IH 1. intros n.
  destruct n as [| |t p [n'|]| | | | | | | | | |m| | | | | |];
    try (clear IH; cbn; split; discriminate).
  - specialize (IH n'). clear -IH. cbn [Node_String unfilled].
    destruct (Node_String n'); [|tauto].
    split; [discriminate|]. intros Hu. apply IH in Hu. discriminate.
  - clear IH. cbn. tauto.
  - clear IH. destruct (MapElem_String_returns m) as [s Hs].
    cbn [Node_String unfilled]. rewrite Hs. split; discriminate.
Qed.






End PanicFacts.

(** ** Copies of copies, and nodes built step by step *)

Section BuildFacts.
Context `{GoFloat}.
Import Ast AstSpec.
Local Open Scope Z_scope.

(** The copy loop over elements that are their own copies appends them
    as they are. *)
Lemma appendCopies_fixed {A : Type} (copy : A -> result A)
    (elems acc : list (option A)) :
  Forall (fun e => exists x, e = Some x /\ copy x = Ok x) elems ->
  appendCopies copy elems acc = Ok (acc ++ elems).
Proof.
  intros Hall. revert acc.
  induction Hall as [|e elems (x & -> & Hx) _ IH]; intros acc.
  - rewrite app_nil_r. reflexivity.
  - cbn [appendCopies callCopy]. rewrite Hx, IH, <- app_assoc. reflexivity.
Qed.

Definition copies_itself (n : Node) : Prop :=
  forall n', ifFree n = true -> Copy n = Ok n' -> Copy n' = Ok n'.

Lemma child_copies_itself (o : option Node) (n' : Node) :
  P_child copies_itself o -> ifFree_child o = true ->
  callCopy Copy o = Ok n' -> Copy n' = Ok n'.
Proof.
  intros IH Hfree Hc. apply callCopy_Ok in Hc as (n & -> & Hc).
  exact (IH n' Hfree Hc).
Qed.

Lemma copies_copy_themselves (elems copies : list (option Node)) :
  Forall (P_child copies_itself) elems ->
  forallb ifFree_child elems = true ->
  Forall2 (fun e c => exists x y, e = Some x /\ c = Some y /\ Copy x = Ok y)
    elems copies ->
  Forall (fun c => exists y, c = Some y /\ Copy y = Ok y) copies.
Proof.
  intros IH Hfree Hall. revert IH Hfree.
  induction Hall as [|e c elems copies (x & y & -> & -> & Hxy) _ IHall];
    intros IH Hfree; [constructor|].
  apply Forall_cons in IH as [IHx IH].
  cbn [forallb] in Hfree. apply andb_true_iff in Hfree as [Hx Hfree].
  constructor; [|apply IHall; assumption].
  exists y. split; [reflexivity|]. exact (IHx y Hx Hxy).
Qed.

Lemma Copy_copies_itself (n : Node) : copies_itself n.
Proof.
  apply copy_induction; clear n; unfold copies_itself.
  - intros t p Nodes IH n' Hfree Hc. cbn [Copy] in Hc.
    apply result_bind_Ok in Hc as (nodes & Happ & [= <-]).
    apply appendCopies_app in Happ as (copies & -> & _ & Hall).
    cbn [app Copy].
    rewrite (appendCopies_fixed Copy copies [])
      by (eapply copies_copy_themselves; eassumption).
    reflexivity.
  - intros t p lhs rhs IHl IHr n' Hfree Hc. cbn [Copy] in Hc.
    cbn [ifFree] in Hfree. apply andb_true_iff in Hfree as [Hl Hr].
    apply result_bind_Ok in Hc as (l' & Hcl & Hc).
    apply result_bind_Ok in Hc as (r' & Hcr & [= <-]).
    cbn [Copy callCopy].
    rewrite (child_copies_itself lhs l' IHl Hl Hcl).
    cbn. rewrite (child_copies_itself rhs r' IHr Hr Hcr). reflexivity.
  - intros t p Guard Body IHg IHb n' Hfree Hc. cbn [Copy] in Hc.
    cbn [ifFree] in Hfree. apply andb_true_iff in Hfree as [Hg Hb].
    apply result_bind_Ok in Hc as (g' & Hcg & Hc).
    apply result_bind_Ok in Hc as (b' & Hcb & [= <-]).
    cbn [Copy callCopy].
    rewrite (child_copies_itself Guard g' IHg Hg Hcg).
    cbn. rewrite (child_copies_itself Body b' IHb Hb Hcb). reflexivity.
  - intros t p Conditionals Else _ IHe n' Hfree Hc.
    cbn [ifFree] in Hfree.
    destruct Conditionals as [|c cs]; [|discriminate].
    cbn [Copy appendCopies length replicate] in Hc.
    apply result_bind_Ok in Hc as (conds & [= <-] & Hc).
    apply result_bind_Ok in Hc as (e' & He & [= <-]).
    destruct Else as [e|].
    + apply result_bind_Ok in He as (e0 & He & [= <-]).
      cbn [Copy appendCopies length replicate]. cbn.
      rewrite (IHe e0 Hfree He). reflexivity.
    + injection He as <-. reflexivity.
  - intros t p ForExpr InExpr Body IHf IHi IHb n' Hfree Hc. cbn [Copy] in Hc.
    cbn [ifFree] in Hfree. apply andb_true_iff in Hfree as [Hfree Hb].
    apply andb_true_iff in Hfree as [Hf Hi].
    apply result_bind_Ok in Hc as (f' & Hcf & Hc).
    apply result_bind_Ok in Hc as (i' & Hci & Hc).
    apply result_bind_Ok in Hc as (b' & Hcb & [= <-]).
    cbn [Copy callCopy].
    rewrite (child_copies_itself ForExpr f' IHf Hf Hcf). cbn.
    rewrite (child_copies_itself InExpr i' IHi Hi Hci). cbn.
    rewrite (child_copies_itself Body b' IHb Hb Hcb). reflexivity.
  - intros t p Name Body IHb n' Hfree Hc. cbn [Copy] in Hc.
    cbn [ifFree] in Hfree.
    apply result_bind_Ok in Hc as (b' & Hcb & [= <-]).
    cbn [Copy callCopy].
    rewrite (child_copies_itself Body b' IHb Hfree Hcb). reflexivity.
  - intros n. destruct n as [| | | | | | | | |t p [l|] r op|t p [l|] r op
                            |t p es|[t p [k|] v]|t p [v|] i| | | | |];
      try exact I; intros n' _ Hc; cbn in Hc; try discriminate;
      try (injection Hc as <-; reflexivity).
    apply result_bind_Ok in Hc as (elems & Happ & [= <-]).
    apply appendCopies_app in Happ as (copies & -> & _ & Hall).
    cbn [app Copy]. rewrite (appendCopies_fixed MapElem_Copy copies []);
      [reflexivity|].
    clear -Hall. induction Hall as [|e c es cs (x & y & -> & -> & Hxy) _ IH];
      constructor; [|assumption].
    exists y. split; [reflexivity|].
    destruct x as [tx px [k|] v]; cbn in Hxy; [|discriminate].
    injection Hxy as <-. reflexivity.
Qed.

(** X3: a copy that reaches no if-block with conditionals renders as the
    original does, and copying it again gives the same tree once more. *)
Theorem Copy_renders_as_original (n n' : Node) :
  ifFree n = true -> Copy n = Ok n' ->
  Node_String n' = Node_String n /\ Copy n' = Ok n'.
Proof.
  intros Hfree Hc. split.
  - apply Copy_preserves_String; assumption.
  - exact (Copy_copies_itself n n' Hfree Hc).
Qed.

End BuildFacts.

Section BuildWitnesses.
Local Open Scope Z_scope.

Lemma Copy_renders_as_original_witness :
  let n := @Ast.SetNode noFloat NodeList 4
             (Some (Ast.LookupNode NodeText 7 "x"))
             (Some (Ast.AddExpr NodeList 0
                      (Some (Ast.IntegerNode NodeInteger 11 1))
                      (Some (Ast.IntegerNode NodeInteger 15 2))
                      (mkItem tokenAdd 13 "+"))) in
  let n' := @Ast.SetNode noFloat NodeSet 4
              (Some (Ast.LookupNode NodeLookup 7 "x"))
              (Some (Ast.AddExpr NodeAdd 11
                       (Some (Ast.IntegerNode NodeInteger 11 1))
                       (Some (Ast.IntegerNode NodeInteger 15 2))
                       (mkItem tokenAdd 13 "+"))) in
  Ast.Node_String n' = Ast.Node_String n /\ Ast.Copy n' = Ok n'.
Proof.
  apply (Copy_renders_as_original
           (@Ast.SetNode noFloat NodeList 4
              (Some (Ast.LookupNode NodeText 7 "x"))
              (Some (Ast.AddExpr NodeList 0
                       (Some (Ast.IntegerNode NodeInteger 11 1))
                       (Some (Ast.IntegerNode NodeInteger 15 2))
                       (mkItem tokenAdd 13 "+"))))); reflexivity.
Defined.

End BuildWitnesses.

Section IfBlockWitnesses.
Local Open Scope Z_scope.

Lemma IfBlockNode_Copy_String_witness :
  exists s,
    @Ast.Node_String noFloat
      (Ast.IfBlockNode NodeIf 0
         [Some (Ast.ConditionalNode NodeIf 3
                  (Some (Ast.LookupNode NodeLookup 6 "x"))
                  (Some (Ast.TextNode NodeText 10 "hi")))] None) = Ok s /\
    @Ast.Node_String noFloat
      (Ast.IfBlockNode NodeIf 0
         [None;
          Some (Ast.ConditionalNode NodeIf 3
                  (Some (Ast.LookupNode NodeLookup 6 "x"))
                  (Some (Ast.TextNode NodeText 10 "hi")))] None) =
      Ok (String.concat EmptyString (replicate 1 Ast.nilAngleString) +:+ s) /\
    ([Some (@Ast.ConditionalNode noFloat NodeIf 3
              (Some (Ast.LookupNode NodeLookup 6 "x"))
              (Some (Ast.TextNode NodeText 10 "hi")))] <> [] ->
     @Ast.Node_String noFloat
       (Ast.IfBlockNode NodeIf 0
          [None;
           Some (Ast.ConditionalNode NodeIf 3
                   (Some (Ast.LookupNode NodeLookup 6 "x"))
                   (Some (Ast.TextNode NodeText 10 "hi")))] None) <>
     @Ast.Node_String noFloat
       (Ast.IfBlockNode NodeIf 0
          [Some (Ast.ConditionalNode NodeIf 3
                   (Some (Ast.LookupNode NodeLookup 6 "x"))
                   (Some (Ast.TextNode NodeText 10 "hi")))] None)).
Proof.
  apply (@IfBlockNode_Copy_String noFloat NodeIf 0
           [Some (Ast.ConditionalNode NodeIf 3
                    (Some (Ast.LookupNode NodeLookup 6 "x"))
                    (Some (Ast.TextNode NodeText 10 "hi")))] None
           (Ast.IfBlockNode NodeIf 0
              [None;
               Some (Ast.ConditionalNode NodeIf 3
                       (Some (Ast.LookupNode NodeLookup 6 "x"))
                       (Some (Ast.TextNode NodeText 10 "hi")))] None));
    reflexivity.
Defined.

End IfBlockWitnesses.

(** ** Lists, maps, stacks and literals *)

Section SliceFacts.
Context `{GoFloat}.
Import Ast AstSpec.
Local Open Scope Z_scope.

(** X5: appending to a list node appends what the new element renders as to
    the rendering of the list, and makes the list one longer; a new list
    is empty and renders as the empty string. *)
Theorem ListNode_append_String (t : NodeType) (p : Pos)
    (ns : list (option Node)) (n : option Node) :
  exists s,
    Node_String (ListNode t p ns) = Ok s /\
    Node_String (ListNode_append n (ListNode t p ns)) =
      Ok (s +:+ printArg Node_String verb_v n) /\
    ListNode_len (ListNode_append n (ListNode t p ns)) =
      ListNode_len (ListNode t p ns) + 1 /\
    ListNode_len (newList p) = 0 /\
    Node_String (newList p) = Ok EmptyString.
Proof.
  eexists. split; [reflexivity|]. split; [|split; [|split; reflexivity]].
  - cbn [ListNode_append Node_String]. rewrite fold_left_app. reflexivity.
  - cbn [ListNode_append ListNode_len]. rewrite length_app. cbn. lia.
Qed.

(** The loop of [MapExpr.String] writes its elements with a comma and a
    space between any two of them. *)
Lemma writeElems_join (pr : option MapElem -> string)
    (elems : list (option MapElem)) (len i : Z) (b : string) :
  len = i + Z.of_nat (length elems) ->
  writeElems pr len i elems b =
  b +:+ String.concat ", " (map pr elems).
Proof.
  revert i b. induction elems as [|n rest IH]; intros i b Hlen.
  - cbn. rewrite append_nil_r. reflexivity.
  - cbn [writeElems]. cbn [length] in Hlen.
    rewrite IH by lia. destruct rest as [|n' rest].
    + destruct (decide (i ≠ len - 1)) as [Hne|_]; [cbn in Hlen; lia|].
      cbn. rewrite append_nil_r. reflexivity.
    + destruct (decide (i ≠ len - 1)) as [_|Heq];
        [|cbn [length] in Hlen; lia].
      cbn [map String.concat]. rewrite !append_assoc. reflexivity.
Qed.

(** X6: a map renders as its elements between braces, separated by a comma
    and a space; an element renders as its key, a colon and its value. *)
Theorem MapExpr_String_join (t : NodeType) (p : Pos)
    (es : list (option MapElem)) :
  Node_String (MapExpr t p es) =
    Ok ("{" +:+ String.concat ", " (map (printElem MapElem_String) es)
        +:+ "}") /\
  Node_String (newMapExpr p) = Ok "{}" /\
  forall m, exists s,
    MapElem_String m = Ok s /\
    Node_String (MapExpr_append (Some m) (MapExpr t p [])) =
      Ok ("{" +:+ s +:+ "}").
Proof.
  split; [|split].
  - cbn [Node_String]. rewrite writeElems_join by lia.
    rewrite append_assoc. reflexivity.
  - reflexivity.
  - intros m. destruct (MapElem_String_returns m) as [s Hs]. exists s.
    split; [assumption|]. cbn. unfold printElem.
    destruct m as [tm pm k v]. cbn in Hs |- *. injection Hs as <-.
    reflexivity.
Qed.

Lemma nodeStack_pop_push (s : nodeStack) (node : option Node) :
  nodeStack_pop (nodeStack_push node s) = (node, s).
Proof.
  destruct s as [t p ns]. unfold nodeStack_pop, nodeStack_push.
  cbn [stack_Nodes stack_NodeType stack_Pos].
  rewrite length_app. cbn [length].
  destruct (Z.ltb_spec 0 (Z.of_nat (length ns + 1))); [|lia].
  replace (length ns + 1 - 1)%nat with (length ns) by lia.
  rewrite lookup_app_r, Nat.sub_diag by lia. cbn.
  rewrite take_app_length. reflexivity.
Qed.

(** X7: the stack is last in, first out: popping as many times as nodes were
    pushed returns them in the reverse order and leaves the stack as it
    was before; [pop] on a new stack returns nil and leaves it empty. *)
Theorem nodeStack_LIFO (s : nodeStack) (ns : list (option Node)) (p : Pos) :
  nodeStack_pops (length ns)
    (fold_left (fun s n => nodeStack_push n s) ns s) = (rev ns, s) /\
  nodeStack_len (fold_left (fun s n => nodeStack_push n s) ns s) =
    nodeStack_len s + Z.of_nat (length ns) /\
  nodeStack_pop (newStack p) = (None, newStack p).
Proof.
  split; [|split; [|reflexivity]].
  - revert s. induction ns as [|n ns IH] using rev_ind; intros s;
      [reflexivity|].
    rewrite fold_left_app, length_app, rev_app_distr.
    cbn [fold_left length rev app].
    rewrite Nat.add_1_r. cbn [nodeStack_pops].
    rewrite nodeStack_pop_push, IH. reflexivity.
  - revert s. induction ns as [|n ns IH]; intros s; cbn [fold_left length].
    + lia.
    + rewrite IH. unfold nodeStack_len, nodeStack_push.
      cbn [stack_Nodes]. rewrite length_app. cbn [length]. lia.
Qed.

(** X8: reading back the rendering of an integer or boolean literal gives the
    same node: [newLiteral] and [String] are inverse to each other on the
    nodes [newLiteral] makes for these two kinds. *)
Theorem literal_round_trip (pos : Pos) (typ : itemType) (lexeme : string)
    (n : Node) :
  typ = tokenInteger \/ typ = tokenBool ->
  newLiteral pos typ lexeme = Ok n ->
  exists s, Node_String n = Ok s /\ newLiteral pos typ s = Ok n.
Proof.
  intros [-> | ->] Hn; cbn [newLiteral] in Hn.
  - destruct (strconv.ParseInt lexeme) as [v [err|]] eqn:Hv; [discriminate|].
    injection Hn as <-. eexists. split; [reflexivity|].
    cbn [newLiteral].
    rewrite ParseInt_FormatInt by (eapply ParseInt_range; eassumption).
    reflexivity.
  - injection Hn as <-. eexists. split; [reflexivity|].
    destruct (decide (lexeme = "true")); reflexivity.
Qed.


End SliceFacts.

Section SliceWitnesses.
Local Open Scope Z_scope.

Lemma literal_round_trip_witness :
  exists s,
    @Ast.Node_String noFloat (Ast.IntegerNode NodeInteger 3 7) = Ok s /\
    @Ast.newLiteral noFloat 3 tokenInteger s =
      Ok (Ast.IntegerNode NodeInteger 3 7).
Proof.
  apply (@literal_round_trip noFloat 3 tokenInteger "+007"
           (Ast.IntegerNode NodeInteger 3 7)).
  - left. reflexivity.
  - reflexivity.
Defined.

End SliceWitnesses.

(** ** The scanner: every state function returns *)

Section LexMore.
Import Lex LexSpec.
Local Open Scope Z_scope.

Lemma delimAt_moved (l : lexer) (p w : Z) :
  delimAt (set_pos p (set_width w l)) = delimAt l.
Proof. destruct l; reflexivity. Qed.

(** The tail of [lexText] once the cursor is at the end of the input,
    as a state. *)
Lemma lexText_eof_at_end (l : lexer) :
  0 <= start l <= pos l -> pos l = len (input l) ->
  lexText_eof l =
  Ok (set_start (pos l)
        (set_items
           (items l ++ pendingText l ++ [mkItem tokenEOF (pos l) EmptyString])
           l), None).
Proof.
  intros Hs Hp. unfold lexText_eof, pendingText, emit.
  destruct l as [c nm fn inp ld rd st p s w lp its]. cbn in *. subst p.
  destruct (Z.ltb_spec s (len inp)) as [Hlt|Hge]; cbn.
  - rewrite slice_in_range by lia. cbn.
    rewrite slice_in_range by lia. cbn.
    rewrite Z.sub_diag, substring_zero.
    unfold set_start, send, set_items. cbn. rewrite <- app_assoc.
    reflexivity.
  - replace s with (len inp) by lia.
    rewrite slice_in_range by lia. cbn.
    rewrite Z.sub_diag, substring_zero. reflexivity.
Qed.

Lemma lexText_post_moved (l l' : lexer) (st : option stateFn) (w : Z) :
  0 <= w ->
  lexText_post (set_pos (pos l + w) (set_width w l)) l' st ->
  lexText_post l l' st.
Proof.
  unfold lexText_post, sent. rewrite delimAt_moved.
  destruct l; cbn. intros Hw (? & ? & ? & ? & ? & ? & ? & ?).
  repeat (split; [assumption || lia|]). assumption.
Qed.

(** The loop of [lexText] returns, given one more iteration than there
    are bytes left: at an offset where the left delimiter starts, with
    itself as the next state, or else at the end of the input with the
    nil state. *)
Lemma lexText_loop_returns (fuel : nat) (l : lexer) :
  pending_ok l ->
  (Z.to_nat (len (input l) - pos l) < fuel)%nat ->
  exists l' st,
    lexText_loop fuel l = Some (Ok (l', st)) /\ lexText_post l l' st.
Proof.
  revert l. induction fuel as [|fuel IH]; intros l Hp Hfuel; [lia|].
  destruct Hp as [Hs Hb].
  cbn [lexText_loop].
  assert (Hsl : slice_from (input l) (pos l) =
                Ok (substring (Z.to_nat (pos l))
                      (Z.to_nat (len (input l) - pos l)) (input l)))
    by (apply slice_in_range; lia).
  rewrite Hsl. cbv beta iota. rewrite (delimAt_slice _ _ Hsl).
  destruct (delimAt l (pos l)) eqn:Hd.
  - (* the left delimiter is at the cursor *)
    unfold lexText_post, sent, emit.
    destruct (Z.ltb_spec (start l) (pos l)) as [Hlt|Hge].
    + rewrite slice_in_range by lia.
      eexists _, _. split; [reflexivity|].
      destruct l; cbn in *.
      destruct (Z.ltb_spec start0 pos0); [|lia].
      repeat (split; [reflexivity || lia|]). auto.
    + eexists _, _. split; [reflexivity|].
      destruct (Z.ltb_spec (start l) (pos l)); [lia|].
      rewrite !app_nil_r.
      repeat (split; [reflexivity || lia|]). auto.
  - destruct (Z.eq_dec (pos l) (len (input l))) as [Heq|Hne].
    + (* the end of the input *)
      rewrite next_at_end by lia. change (eof =? eof) with true. cbv iota.
      rewrite lexText_eof_at_end by (destruct l; cbn in *; lia).
      eexists _, None. split; [reflexivity|].
      unfold lexText_post, sent, pendingText.
      destruct l; cbn in *. subst.
      repeat (split; [reflexivity || lia|]). reflexivity.
    + destruct (next_before_end l) as (r & w & Hnext & Hr & Hw & Hle);
        [lia|].
      rewrite Hnext.
      destruct (Z.eqb_spec r eof) as [->|_]; [unfold eof in Hr; lia|].
      destruct (IH (set_pos (pos l + w) (set_width w l)))
        as (l' & st & Hloop & Hpost).
      { unfold pending_ok. destruct l; cbn in *. lia. }
      { destruct l; cbn in *. lia. }
      exists l', st. split; [assumption|].
      apply (lexText_post_moved l l' st w); [lia | assumption].
Qed.

(** The offsets the loop tests lie at or after the cursor. *)
Lemma scanned_from_cursor (fuel : nat) (l : lexer) :
  in_bounds l -> Forall (fun p => pos l <= p) (scanned fuel l).
Proof.
  revert l. induction fuel as [|fuel IH]; intros l Hb; [constructor|].
  cbn [scanned]. constructor; [lia|].
  unfold in_bounds in Hb.
  destruct (Z.le_gt_cases (len (input l)) (pos l)) as [Hend|Hin].
  - rewrite next_at_end by lia. constructor.
  - destruct (next_before_end l) as (r & w & Hnext & Hr & Hw & Hle); [lia|].
    rewrite Hnext. destruct (r =? eof); [constructor|].
    eapply Forall_impl; [apply IH|].
    + unfold in_bounds. destruct l; cbn in *. lia.
    + destruct l; cbn in *. intros; lia.
Qed.

(** [lexText] returns the nil state exactly when no left delimiter
    starts where its loop tests for one, and stops at the first such
    offset otherwise. *)
Lemma lexText_loop_first (fuel : nat) (l l' : lexer) (st : option stateFn) :
  pending_ok l ->
  lexText_loop fuel l = Some (Ok (l', st)) ->
  forallb (fun p => negb (delimAt l p)) (scanned fuel l) =
    match st with None => true | Some _ => false end /\
  Forall (fun p => p < pos l' -> delimAt l p = false) (scanned fuel l).
Proof.
  revert l. induction fuel as [|fuel IH]; intros l Hp Hloop; [discriminate|].
  destruct Hp as [Hs Hb].
  cbn [lexText_loop] in Hloop. cbn [scanned forallb].
  assert (Hsl : slice_from (input l) (pos l) =
                Ok (substring (Z.to_nat (pos l))
                      (Z.to_nat (len (input l) - pos l)) (input l)))
    by (apply slice_in_range; lia).
  rewrite Hsl in Hloop. cbv beta iota in Hloop.
  rewrite (delimAt_slice _ _ Hsl) in Hloop.
  destruct (delimAt l (pos l)) eqn:Hd.
  - (* the left delimiter is at the cursor *)
    assert (Hres : st = Some lexText /\ pos l' = pos l).
    { unfold emit in Hloop.
      destruct (start l <? pos l).
      - rewrite slice_in_range in Hloop by lia. cbn in Hloop.
        injection Hloop as <- <-. destruct l; auto.
      - cbn in Hloop. injection Hloop as <- <-. auto. }
    destruct Hres as [-> Hpos]. split; [reflexivity|].
    constructor; [lia|].
    eapply Forall_impl.
    + pose proof (scanned_from_cursor (S fuel) l) as Hall.
      cbn [scanned] in Hall. apply Forall_cons_1 in Hall as [_ Hall];
        [exact Hall | unfold in_bounds; lia].
    + cbn. intros; lia.
  - cbn [negb andb].
    destruct (Z.eq_dec (pos l) (len (input l))) as [Heq|Hne].
    + rewrite next_at_end in Hloop |- * by lia.
      change (eof =? eof) with true in Hloop |- *. cbv iota in Hloop |- *.
      rewrite lexText_eof_at_end in Hloop by (destruct l; cbn in *; lia).
      injection Hloop as <- <-.
      split; [reflexivity|]. constructor; [auto | constructor].
    + destruct (next_before_end l) as (r & w & Hnext & Hr & Hw & Hle);
        [lia|].
      rewrite Hnext in Hloop |- *.
      destruct (Z.eqb_spec r eof) as [->|_]; [unfold eof in Hr; lia|].
      apply IH in Hloop as [Hall Hfirst].
      * rewrite delimAt_moved in Hall, Hfirst. split; [assumption|].
        constructor; [auto | assumption].
      * unfold pending_ok. destruct l; cbn in *. lia.
Qed.

(** X10: [lexText] always returns: it neither panics nor loops.  It stops at
    the first offset it tests where the left delimiter starts, and
    returns itself; with no such offset it stops at the end of the input
    and returns the nil state.  It sends the bytes from the start of the
    pending item to where it stops as one text token when there are any,
    and an EOF token after it at the end of the input; the pending item
    is empty afterwards. *)
Theorem lexText_returns (l : lexer) :
  pending_ok l ->
  exists l' st,
    apply lexText l = Some (Ok (l', st)) /\
    pending_ok l' /\ input l' = input l /\
    pos l <= pos l' /\ start l' = pos l' /\
    items l' = items l ++ sent l (pos l') st /\
    (st = None <-> delimFree l = true) /\
    (st = None -> pos l' = len (input l)) /\
    (st <> None -> st = Some lexText /\ delimAt l (pos l') = true) /\
    Forall (fun p => p < pos l' -> delimAt l p = false)
      (scanned (lexText_fuel l) l).
Proof.
  intros Hp.
  destruct (lexText_loop_returns (lexText_fuel l) l Hp)
    as (l' & st & Hloop & Hpost).
  { destruct Hp as [Hs Hb]. unfold lexText_fuel, len in *. lia. }
  destruct (lexText_loop_first _ _ _ _ Hp Hloop) as [Hall Hfirst].
  destruct Hpost as (Hin & Hld & Hst & Hlp & Hpos & Hstart & Hitems & Hend).
  exists l', st. unfold apply, delimFree, pending_ok in *.
  rewrite Hin, Hstart, Hall.
  repeat (split; [assumption || reflexivity || lia|]).
  split; [|split; [|split]].
  - destruct st; split; congruence.
  - intros ->. assumption.
  - destruct st as [f|]; [|congruence]. destruct Hend as [-> Hd]. auto.
  - assumption.
Qed.

Lemma lexText_returns_witness :
  exists l' st,
    apply lexText (scanner "a{{b" "{{") = Some (Ok (l', st)) /\
    pending_ok l' /\ input l' = "a{{b"%string /\
    0 <= pos l' /\ start l' = pos l' /\
    items l' = sent (scanner "a{{b" "{{") (pos l') st /\
    (st = None <-> delimFree (scanner "a{{b" "{{") = true) /\
    (st = None -> pos l' = 4) /\
    (st <> None ->
     st = Some lexText /\ delimAt (scanner "a{{b" "{{") (pos l') = true) /\
    Forall (fun p => p < pos l' -> delimAt (scanner "a{{b" "{{") p = false)
      (scanned (lexText_fuel (scanner "a{{b" "{{")) (scanner "a{{b" "{{")).
Proof.
  apply (lexText_returns (scanner "a{{b" "{{")).
  unfold pending_ok. vm_compute. repeat split; discriminate.
Defined.

Lemma next_set_state (st : option stateFn) (l : lexer) :
  next (set_state st l) =
  match next l with
  | Ok (r, l') => Ok (r, set_state st l')
  | Panic => Panic
  end.
Proof.
  unfold next. destruct l; cbn.
  destruct (len input0 <=? pos0); [reflexivity|].
  destruct (slice_from input0 pos0) as [rest|]; [|reflexivity]. cbn.
  destruct (utf8.DecodeRuneInString rest). reflexivity.
Qed.

(** The state function held does not change what [lexText] scans. *)
Lemma delimFree_set_state (st : option stateFn) (l : lexer) :
  delimFree (set_state st l) = delimFree l.
Proof.
  unfold delimFree.
  replace (lexText_fuel (set_state st l)) with (lexText_fuel l)
    by (destruct l; reflexivity).
  replace (fun p => negb (delimAt (set_state st l) p))
    with (fun p => negb (delimAt l p)) by (destruct l; reflexivity).
  f_equal. generalize (lexText_fuel l) as fuel. intros fuel. revert l.
  induction fuel as [|fuel IH]; intros l; [reflexivity|].
  cbn [scanned]. rewrite next_set_state.
  replace (pos (set_state st l)) with (pos l) by (destruct l; reflexivity).
  destruct (next l) as [[r l']|]; [|reflexivity].
  destruct (r =? eof); [reflexivity|]. rewrite IH. reflexivity.
Qed.

Lemma run_loop_nil (fuel : nat) (l : lexer) :
  state l = None -> run_loop fuel l = Some (Ok l).
Proof. intros Hst. destruct fuel; cbn; rewrite Hst; reflexivity. Qed.

(** X11: [run] never panics, and it ends exactly when no left delimiter
    starts where [lexText] tests for one: then one call of [lexText] is
    enough, and the items sent are the pending bytes as a text token,
    when there are any, and an EOF token; with a left delimiter no
    number of iterations is enough. *)
Theorem run_ends_iff (l : lexer) :
  pending_ok l ->
  (forall fuel, run fuel l <> Some Panic) /\
  (delimFree l = true ->
   forall fuel, exists l',
     run (S fuel) l = Some (Ok l') /\ state l' = None /\
     pos l' = len (input l) /\
     items l' = items l ++ sent l (len (input l)) None) /\
  (delimFree l = false -> forall fuel, run fuel l = None).
Proof.
  intros Hp.
  set (l0 := set_state (Some lexText) l).
  assert (Hp0 : pending_ok l0) by (destruct l; exact Hp).
  assert (Hfree : delimFree l0 = delimFree l) by apply delimFree_set_state.
  destruct (lexText_loop_returns (lexText_fuel l0) l0 Hp0)
    as (l' & st & Hloop & Hpost).
  { destruct Hp0 as [Hs Hb]. unfold lexText_fuel, len in *. lia. }
  destruct (lexText_loop_first _ _ _ _ Hp0 Hloop) as [Hall _].
  fold (delimFree l0) in Hall. rewrite Hfree in Hall.
  destruct Hpost as (Hin & Hld & Hst & Hlp & Hpos & Hstart & Hitems & Hend).
  assert (Hstep : forall fuel,
            run (S fuel) l = run_loop fuel (set_state st l')).
  { intros fuel. unfold run. fold l0.
    apply (run_loop_step fuel l0 l' lexText st); [destruct l; reflexivity|].
    exact Hloop. }
  assert (Hl0 : input l0 = input l /\ pos l0 = pos l /\
                items l0 = items l /\ sent l0 = sent l)
    by (destruct l; auto).
  destruct Hl0 as (Hin0 & Hpos0 & Hitems0 & Hsent0).
  destruct Hp0 as [Hs0 Hb0].
  rewrite Hin0, Hpos0 in *. rewrite Hitems0, Hsent0 in Hitems.
  destruct st as [f|].
  - (* stopped at a left delimiter *)
    destruct Hend as [-> Hd].
    assert (Hnever : forall fuel, run fuel l = None).
    { intros [|fuel]; [reflexivity|]. rewrite Hstep.
      apply run_loop_at_delim.
      - change (0 <= start l' <= pos l'). lia.
      - change (0 <= pos l' <= len (input l')). rewrite Hin. lia.
      - change (delimAt l' (pos l') = true). unfold delimAt in *.
        rewrite Hin, Hld. exact Hd.
      - reflexivity. }
    split; [|split].
    + intros fuel. rewrite Hnever. discriminate.
    + intros Hf. congruence.
    + intros _. exact Hnever.
  - split; [|split].
    + intros [|fuel]; [discriminate|].
      rewrite Hstep, run_loop_nil by reflexivity. discriminate.
    + intros _ fuel. exists (set_state None l').
      rewrite Hstep, run_loop_nil by reflexivity.
      split; [reflexivity|]. split; [reflexivity|].
      change (pos l' = len (input l) /\
              items l' = items l ++ sent l (len (input l)) None).
      rewrite <- Hend. auto.
    + intros Hf. congruence.
Qed.

Lemma run_ends_iff_witness :
  (forall fuel, run fuel (scanner "a{{b" "{{") <> Some Panic) /\
  (delimFree (scanner "a{{b" "{{") = true ->
   forall fuel, exists l',
     run (S fuel) (scanner "a{{b" "{{") = Some (Ok l') /\ state l' = None /\
     pos l' = 4 /\
     items l' = sent (scanner "a{{b" "{{") 4 None) /\
  (delimFree (scanner "a{{b" "{{") = false ->
   forall fuel, run fuel (scanner "a{{b" "{{") = None).
Proof.
  apply (run_ends_iff (scanner "a{{b" "{{")).
  unfold pending_ok. vm_compute. repeat split; discriminate.
Defined.

End LexMore.

(** ** The scanner: accepting runes, items and line numbers *)

Section AcceptFacts.
Import Lex LexSpec.
Local Open Scope Z_scope.

(** The end-of-input marker is in no set of valid runes. *)
Lemma IndexRune_eof (valid : string) : strings.IndexRune valid eof = -1.
Proof. reflexivity. Qed.

(** [next] sets the width and does not read it. *)
Lemma next_set_width (w : Z) (l : lexer) : next (set_width w l) = next l.
Proof.
  unfold next. destruct l; cbn.
  destruct (len input0 <=? pos0); [reflexivity|].
  destruct (slice_from input0 pos0) as [rest|]; [|reflexivity]. cbn.
  destruct (utf8.DecodeRuneInString rest). reflexivity.
Qed.

(** One [next] and one [backup]: the cursor is back, and the width is
    the one of the rune read, 0 at the end of the input only. *)
Lemma next_backup (l : lexer) :
  in_bounds l ->
  exists r w l',
    next l = Ok (r, l') /\ backup l' = set_width w l /\
    input l' = input l /\ start l' = start l /\ items l' = items l /\
    pos l' = pos l + w /\ width l' = w /\
    0 <= w /\ pos l + w <= len (input l) /\
    (len (input l) <= pos l -> r = eof /\ w = 0) /\
    (pos l < len (input l) -> 0 <= r /\ 0 < w).
Proof.
  intros Hb. unfold in_bounds in Hb.
  destruct (Z.le_gt_cases (len (input l)) (pos l)) as [Hend|Hin].
  - exists eof, 0, (set_width 0 l). rewrite next_at_end by assumption.
    split; [reflexivity|]. split.
    + unfold backup. destruct l; cbn. rewrite Z.sub_0_r. reflexivity.
    + destruct l; cbn in *. repeat split; auto; lia.
  - destruct (next_before_end l) as (r & w & Hnext & Hr & Hw & Hle); [lia|].
    exists r, w, (set_pos (pos l + w) (set_width w l)).
    split; [assumption|]. split.
    + unfold backup. destruct l; cbn. rewrite Z.add_simpl_r. reflexivity.
    + destruct l; cbn in *. repeat split; auto; lia.
Qed.

(** X12: [accept] keeps the cursor within the input: it moves it forward by
    the width of the rune read when it returns true and leaves it where
    it was when it returns false, which it does at the end of the
    input whatever the valid set. *)
Theorem accept_moves (valid : string) (l : lexer) :
  in_bounds l ->
  exists ok l',
    accept valid l = Ok (ok, l') /\
    input l' = input l /\ start l' = start l /\ items l' = items l /\
    in_bounds l' /\
    (ok = true -> pos l' = pos l + width l' /\ 0 < width l') /\
    (ok = false -> pos l' = pos l) /\
    (len (input l) <= pos l -> ok = false).
Proof.
  intros Hb.
  destruct (next_backup l Hb)
    as (r & w & l1 & Hnext & Hback & Hin & Hstart & Hitems & Hpos & Hwidth
        & Hw & Hle & Hend & Hmid).
  unfold accept. rewrite Hnext. cbn.
  unfold in_bounds in *.
  destruct (Z.leb_spec 0 (strings.IndexRune valid r)) as [Hok|Hno].
  - exists true, l1. split; [reflexivity|].
    assert (Hlt : pos l < len (input l)).
    { destruct (Z.le_gt_cases (len (input l)) (pos l)) as [He|]; [|lia].
      destruct (Hend He) as [-> _]. rewrite IndexRune_eof in Hok. lia. }
    rewrite Hin. repeat split; try assumption; try lia.
  - exists false, (backup l1). split; [reflexivity|].
    rewrite Hback. destruct l; cbn in *.
    repeat split; try reflexivity; try lia.
Qed.

Lemma accept_moves_witness :
  exists ok l',
    accept "0123456789" (scanner "42*x" "{{") = Ok (ok, l') /\
    input l' = "42*x"%string /\ start l' = 0 /\ items l' = [] /\
    in_bounds l' /\
    (ok = true -> pos l' = 0 + width l' /\ 0 < width l') /\
    (ok = false -> pos l' = 0) /\
    (4 <= 0 -> ok = false).
Proof.
  apply (accept_moves "0123456789" (scanner "42*x" "{{")).
  unfold in_bounds. vm_compute. split; discriminate.
Defined.

(** The loop of [acceptRun] ends, given one more iteration than there
    are bytes left, on a rune that is not in the valid set. *)
Lemma acceptRun_loop_returns (fuel : nat) (valid : string) (l : lexer) :
  in_bounds l ->
  (Z.to_nat (len (input l) - pos l) < fuel)%nat ->
  exists r l1 l',
    acceptRun_loop fuel valid l = Some (Ok l1) /\ backup l1 = l' /\
    input l' = input l /\ start l' = start l /\ items l' = items l /\
    pos l <= pos l' <= len (input l) /\
    next l' = Ok (r, l1) /\ strings.IndexRune valid r < 0.
Proof.
  revert l. induction fuel as [|fuel IH]; intros l Hb Hfuel; [lia|].
  destruct (next_backup l Hb)
    as (r & w & l1 & Hnext & Hback & Hin & Hstart & Hitems & Hpos & Hwidth
        & Hw & Hle & Hend & Hmid).
  unfold in_bounds in Hb.
  cbn [acceptRun_loop]. rewrite Hnext.
  destruct (Z.leb_spec 0 (strings.IndexRune valid r)) as [Hok|Hno].
  - assert (Hlt : pos l < len (input l)).
    { destruct (Z.le_gt_cases (len (input l)) (pos l)) as [He|]; [|lia].
      destruct (Hend He) as [-> _]. rewrite IndexRune_eof in Hok. lia. }
    destruct (IH l1) as (r' & l2 & l' & Hloop & Hb' & Hin' & Hstart' & Hitems'
                         & Hpos' & Hnext' & Hno').
    { unfold in_bounds. rewrite Hin. lia. }
    { rewrite Hin. lia. }
    exists r', l2, l'. rewrite Hin', Hstart', Hitems'. rewrite Hin in Hpos'.
    repeat split; try assumption; try lia.
  - exists r, l1, (set_width w l). rewrite Hback, next_set_width.
    destruct l; cbn in *. repeat split; try assumption; try reflexivity; lia.
Qed.

(** X13: [acceptRun] returns, with the cursor within the input and not
    before where it was; where it stops, [accept] with the same valid
    set fails, and another [acceptRun] changes nothing. *)
Theorem acceptRun_returns (valid : string) (l : lexer) :
  in_bounds l ->
  exists l',
    acceptRun (lexText_fuel l) valid l = Some (Ok l') /\
    input l' = input l /\ start l' = start l /\ items l' = items l /\
    pos l <= pos l' <= len (input l) /\
    accept valid l' = Ok (false, l') /\
    forall fuel, acceptRun (S fuel) valid l' = Some (Ok l').
Proof.
  intros Hb.
  destruct (acceptRun_loop_returns (lexText_fuel l) valid l Hb)
    as (r & l1 & l' & Hloop & Hback & Hin & Hstart & Hitems & Hpos & Hnext
        & Hno).
  { unfold in_bounds, lexText_fuel, len in *. lia. }
  exists l'. unfold acceptRun, accept. rewrite Hloop, Hback, Hnext.
  repeat (split; [assumption || reflexivity || lia|]).
  cbn. destruct (Z.leb_spec 0 (strings.IndexRune valid r)); [lia|].
  rewrite Hback. split; [reflexivity|].
  intros fuel. cbn [acceptRun_loop]. rewrite Hnext.
  destruct (Z.leb_spec 0 (strings.IndexRune valid r)); [lia|].
  rewrite Hback. reflexivity.
Qed.

Lemma acceptRun_returns_witness :
  exists l',
    acceptRun 5 "0123456789" (scanner "42*x" "{{") = Some (Ok l') /\
    input l' = "42*x"%string /\ start l' = 0 /\ items l' = [] /\
    0 <= pos l' <= 4 /\
    accept "0123456789" l' = Ok (false, l') /\
    forall fuel, acceptRun (S fuel) "0123456789" l' = Some (Ok l').
Proof.
  apply (acceptRun_returns "0123456789" (scanner "42*x" "{{")).
  unfold in_bounds. vm_compute. split; discriminate.
Defined.

End AcceptFacts.

(** ** The scanner: items and line numbers *)

Section ItemFacts.
Import Lex LexSpec.
Local Open Scope Z_scope.

Lemma slice_out_of_range (s : string) (lo hi : Z) :
  ~ (0 <= lo <= hi /\ hi <= len s) -> slice s lo hi = Panic.
Proof.
  intros Hno. unfold slice.
  destruct (Z.leb_spec 0 lo); [|reflexivity].
  destruct (Z.leb_spec lo hi); [|reflexivity].
  destruct (Z.leb_spec hi (len s)); [|reflexivity]. lia.
Qed.

(** X14: [emit] and [lineNumber] slice the input, and panic exactly when the
    slice is out of range: [emit] when the pending item does not lie
    within the input, [lineNumber] when the position of the last item
    does not.  When [emit] returns it has sent one item, of the kind
    asked for, that starts where the pending item started and is as long
    as it, and the pending item is empty. *)
Theorem emit_returns_iff (t : itemType) (l : lexer) :
  (emit t l = Panic <-> ~ pending_ok l) /\
  (lineNumber l = Panic <-> ~ 0 <= lastPos l <= len (input l)) /\
  (forall l', emit t l = Ok l' ->
     exists v,
       items l' = items l ++ [mkItem t (start l) v] /\
       len v = pos l - start l /\
       input l' = input l /\ pos l' = pos l /\ start l' = pos l /\
       pending_ok l' /\ pendingText l' = []).
Proof.
  unfold pending_ok, emit, lineNumber.
  split; [|split].
  - split.
    + intros Hpanic Hp. rewrite slice_in_range in Hpanic by lia.
      discriminate.
    + intros Hno. rewrite slice_out_of_range by lia. reflexivity.
  - split.
    + intros Hpanic Hp. rewrite slice_in_range in Hpanic by lia.
      discriminate.
    + intros Hno. rewrite slice_out_of_range by lia. reflexivity.
  - intros l' Hemit.
    destruct (slice (input l) (start l) (pos l)) as [v|] eqn:Hv;
      [|discriminate].
    cbn in Hemit. injection Hemit as <-. exists v.
    unfold slice in Hv.
    destruct (Z.leb_spec 0 (start l)); [|discriminate].
    destruct (Z.leb_spec (start l) (pos l)); [|discriminate].
    destruct (Z.leb_spec (pos l) (len (input l))); [|discriminate].
    cbn in Hv. injection Hv as <-.
    assert (Hlen : len (substring (Z.to_nat (start l))
                          (Z.to_nat (pos l - start l)) (input l)) =
                   pos l - start l).
    { unfold len in *. rewrite substring_length; lia. }
    unfold pendingText. destruct l; cbn in *.
    rewrite Z.ltb_irrefl. repeat split; auto; lia.
Qed.

Lemma CountByte_app (s1 s2 : string) (c : Z) :
  strings.CountByte (s1 +:+ s2) c =
  strings.CountByte s1 c + strings.CountByte s2 c.
Proof.
  induction s1 as [|a s1 IH]; [reflexivity|].
  change (String a s1 +:+ s2) with (String a (s1 +:+ s2)).
  cbn [strings.CountByte]. rewrite IH. lia.
Qed.

Lemma CountByte_bounds (s : string) (c : Z) :
  0 <= strings.CountByte s c <= len s.
Proof.
  unfold len. induction s as [|a s IH]; cbn [strings.CountByte String.length].
  - lia.
  - destruct (utf8.byte a =? c); lia.
Qed.

Lemma substring_split (s : string) (p q : nat) :
  (p <= q)%nat ->
  substring 0 q s = substring 0 p s +:+ substring p (q - p) s.
Proof.
  revert p q. induction s as [|a s IH]; intros p q Hle.
  - destruct p, q; reflexivity.
  - destruct p as [|p].
    + rewrite Nat.sub_0_r. reflexivity.
    + destruct q as [|q]; [lia|]. cbn [substring Nat.sub].
      rewrite (IH p q) by lia. reflexivity.
Qed.

(** X15: line numbers add up: the line number at a later position is the one
    at an earlier position plus the number of line feeds between the
    two, so that it never decreases along the input; the first line is
    line 1. *)
Theorem lineNumber_counts (l : lexer) (p q : Z) :
  0 <= p <= q -> q <= len (input l) ->
  exists n m,
    lineNumber (set_lastPos p l) = Ok n /\
    lineNumber (set_lastPos q l) = Ok m /\
    m = n + newlines l p q /\
    1 <= n <= m /\ m <= 1 + q /\
    lineNumber (set_lastPos 0 l) = Ok 1.
Proof.
  intros Hpq Hq. unfold lineNumber, newlines.
  replace (input (set_lastPos p l)) with (input l) by (destruct l; reflexivity).
  replace (input (set_lastPos q l)) with (input l) by (destruct l; reflexivity).
  replace (input (set_lastPos 0 l)) with (input l) by (destruct l; reflexivity).
  replace (lastPos (set_lastPos p l)) with p by (destruct l; reflexivity).
  replace (lastPos (set_lastPos q l)) with q by (destruct l; reflexivity).
  replace (lastPos (set_lastPos 0 l)) with 0 by (destruct l; reflexivity).
  rewrite !slice_in_range by lia. cbn [mbind result_bind].
  rewrite !Z.sub_0_r. change (Z.to_nat 0) with 0%nat.
  eexists _, _. split; [reflexivity|]. split; [reflexivity|].
  rewrite (substring_split (input l) (Z.to_nat p) (Z.to_nat q)) by lia.
  rewrite CountByte_app.
  replace (Z.to_nat q - Z.to_nat p)%nat with (Z.to_nat (q - p)) by lia.
  pose proof (CountByte_bounds (substring 0 (Z.to_nat p) (input l)) newline)
    as [Hp0 Hp1].
  pose proof (CountByte_bounds
                (substring (Z.to_nat p) (Z.to_nat (q - p)) (input l)) newline)
    as [Hq0 Hq1].
  unfold len in *. rewrite substring_length in Hp1, Hq1 by lia.
  rewrite substring_zero.
  repeat split; try reflexivity; lia.
Qed.

Lemma lineNumber_counts_witness :
  exists n m,
    lineNumber (set_lastPos 1 (scanner "a{{b" "{{")) = Ok n /\
    lineNumber (set_lastPos 3 (scanner "a{{b" "{{")) = Ok m /\
    m = n + newlines (scanner "a{{b" "{{") 1 3 /\
    1 <= n <= m /\ m <= 1 + 3 /\
    lineNumber (set_lastPos 0 (scanner "a{{b" "{{")) = Ok 1.
Proof.
  apply (lineNumber_counts (scanner "a{{b" "{{") 1 3).
  - lia.
  - vm_compute. discriminate.
Defined.

(** X16: after [lexText] on a lexer whose items have all been received,
    [nextItem] blocks when [lexText] sent nothing, and otherwise receives
    the first item sent, which starts where the pending item started;
    [lineNumber] then returns one more than the number of line feeds
    before that position. *)
Theorem nextItem_after_lexText (l : lexer) :
  pending_ok l -> items l = [] ->
  exists l1 st,
    apply lexText l = Some (Ok (l1, st)) /\
    (sent l (pos l1) st = [] -> nextItem l1 = None) /\
    (forall it rest, sent l (pos l1) st = it :: rest ->
       exists l2,
         nextItem l1 = Some (it, l2) /\ items l2 = rest /\
         lastPos l2 = start l /\
         lineNumber l2 = Ok (1 + newlines l 0 (start l))).
Proof.
  intros Hp Hnil.
  destruct (lexText_loop_returns (lexText_fuel l) l Hp)
    as (l1 & st & Hloop & Hpost).
  { destruct Hp as [Hs Hb]. unfold lexText_fuel, len in *. lia. }
  destruct Hpost as (Hin & Hld & Hst & Hlp & Hpos & Hstart & Hitems & Hend).
  rewrite Hnil in Hitems. cbn [app] in Hitems.
  exists l1, st. split; [exact Hloop|].
  unfold nextItem. rewrite Hitems. split.
  - intros ->. reflexivity.
  - intros it rest Hsent. rewrite Hsent. eexists. split; [reflexivity|].
    split; [destruct l1; reflexivity|].
    assert (Hit : match it with mkItem _ p _ => p end = start l).
    { unfold sent in Hsent. destruct Hp as [Hs Hb].
      destruct (Z.ltb_spec (start l) (pos l1)).
      - injection Hsent as <- _. reflexivity.
      - destruct st; [discriminate|]. injection Hsent as <- _.
        cbn. lia. }
    rewrite Hit. split; [destruct l1; reflexivity|].
    unfold lineNumber, newlines.
    replace (input (set_lastPos (start l) (set_items rest l1)))
      with (input l) by (destruct l1; cbn in *; congruence).
    replace (lastPos (set_lastPos (start l) (set_items rest l1)))
      with (start l) by (destruct l1; reflexivity).
    destruct Hp as [Hs Hb].
    rewrite slice_in_range by lia. rewrite Z.sub_0_r. reflexivity.
Qed.

Lemma nextItem_after_lexText_witness :
  exists l1 st,
    apply lexText (scanner "a{{b" "{{") = Some (Ok (l1, st)) /\
    (sent (scanner "a{{b" "{{") (pos l1) st = [] -> nextItem l1 = None) /\
    (forall it rest, sent (scanner "a{{b" "{{") (pos l1) st = it :: rest ->
       exists l2,
         nextItem l1 = Some (it, l2) /\ items l2 = rest /\
         lastPos l2 = 0 /\
         lineNumber l2 = Ok (1 + newlines (scanner "a{{b" "{{") 0 0)).
Proof.
  apply (nextItem_after_lexText (scanner "a{{b" "{{")).
  - unfold pending_ok. vm_compute. repeat split; discriminate.
  - reflexivity.
Defined.

End ItemFacts.

(** ** The store: what [Copy] leaves alone *)

Section StoreFrame.
Context `{GoFloat}.
Import Store StoreSpec.

Lemma bind_inv {A B : Type} (m : M A) (k : A -> M B) (h h' : heap) (b : B) :
  bind m k h = Some (Ok (b, h')) ->
  exists a h1, m h = Some (Ok (a, h1)) /\ k a h1 = Some (Ok (b, h')).
Proof.
  unfold bind. destruct (m h) as [[[a h1]|]|]; try discriminate. eauto.
Qed.

Lemma keeps_ret {A : Type} (b : nat) (a : A) : keeps b (ret a).
Proof. intros h a' h' _ [= <- <-]. auto. Qed.

Lemma keeps_panic {A : Type} (b : nat) : keeps b (@panic _ A).
Proof. intros h a h' _ [=]. Qed.

Lemma keeps_timeout {A : Type} (b : nat) : keeps b (@timeout _ A).
Proof. intros h a h' _ [=]. Qed.

Lemma keeps_bind {A B : Type} (b : nat) (m : M A) (k : A -> M B) :
  keeps b m -> (forall a, keeps b (k a)) -> keeps b (bind m k).
Proof.
  intros Hm Hk h x h' Hb Hrun.
  apply bind_inv in Hrun as (a & h1 & Hm1 & Hk1).
  destruct (Hm _ _ _ Hb Hm1) as [Ht1 Hl1].
  destruct (Hk a h1 x h' ltac:(lia) Hk1) as [Ht2 Hl2].
  split; [congruence | lia].
Qed.

Lemma keeps_deref (b : nat) (n : option ref) : keeps b (deref n).
Proof.
  intros h c h' _. unfold deref.
  destruct n as [r|]; [|intros [=]].
  case_match; [|intros [=]]. intros [= <- <-]. auto.
Qed.

Lemma keeps_Position_of (b : nat) (n : option ref) :
  keeps b (Position_of n).
Proof.
  apply keeps_bind; [apply keeps_deref | intros; apply keeps_ret].
Qed.

Lemma keeps_assert_MapElem (b : nat) (r : ref) : keeps b (assert_MapElem r).
Proof.
  apply keeps_bind; [apply keeps_deref|].
  intros []; apply keeps_ret || apply keeps_panic.
Qed.

Lemma keeps_update (b : nat) (n : ref) (f : cell -> cell) :
  (b <= n)%nat -> keeps b (update n f).
Proof.
  intros Hn h [] h' _. unfold update.
  case_match; [|intros [=]]. intros [= <-].
  unfold heap. rewrite take_insert_ge, length_insert by assumption. auto.
Qed.

(** What follows an allocation may assign to the new struct. *)
Lemma keeps_bind_new {B : Type} (b : nat) (c : cell) (k : ref -> M B) :
  (forall n, (b <= n)%nat -> keeps b (k n)) -> keeps b (bind (new c) k).
Proof.
  intros Hk h x h' Hb Hrun. unfold bind, new in Hrun.
  destruct (Hk (length h) Hb (h ++ [c]) x h') as [Ht Hl];
    [rewrite length_app; lia | assumption |].
  rewrite length_app in Hl. cbn in Hl.
  rewrite take_app_le in Ht by assumption. split; [assumption | lia].
Qed.

Lemma keeps_new (b : nat) (c : cell) : keeps b (new c).
Proof.
  intros h n h' Hb [= <- <-]. rewrite length_app, take_app_le by assumption.
  split; [reflexivity | lia].
Qed.

Section Loops.
Variable copy : ref -> M ref.
Variable b : nat.
Hypothesis keeps_copy : forall r, keeps b (copy r).

Lemma keeps_callCopy (x : option ref) : keeps b (callCopy copy x).
Proof. destruct x; [apply keeps_copy | apply keeps_panic]. Qed.

Lemma keeps_appendCopies (n : ref) (elems : list (option ref)) :
  (b <= n)%nat -> keeps b (appendCopies copy n elems).
Proof.
  intros Hn. induction elems as [|elem rest IH]; cbn [appendCopies].
  - apply keeps_ret.
  - apply keeps_bind; [apply keeps_callCopy|]. intros c.
    apply keeps_bind; [apply keeps_update; assumption|]. intros _.
    exact IH.
Qed.

Lemma keeps_appendElemCopies (n : ref) (elems : list (option ref)) :
  (b <= n)%nat -> keeps b (appendElemCopies copy n elems).
Proof.
  intros Hn. induction elems as [|elem rest IH]; cbn [appendElemCopies].
  - apply keeps_ret.
  - apply keeps_bind; [apply keeps_callCopy|]. intros c.
    apply keeps_bind; [apply keeps_assert_MapElem|]. intros c'.
    apply keeps_bind; [apply keeps_update; assumption|]. intros _.
    exact IH.
Qed.
End Loops.

Ltac keeps_step :=
  first
    [ apply keeps_ret | apply keeps_panic | apply keeps_new
    | apply keeps_Position_of | apply keeps_deref
    | apply keeps_update; assumption
    | apply keeps_callCopy; assumption
    | apply keeps_appendCopies; assumption
    | apply keeps_appendElemCopies; assumption
    | apply keeps_bind_new; intros ? ?
    | apply keeps_bind; [|intros ?]
    | solve [auto] ].

(** [Copy] leaves every cell below any address within the heap as it
    is. *)
Lemma keeps_Copy (fuel : nat) (b : nat) (r : ref) : keeps b (Copy fuel r).
Proof.
  revert r. induction fuel as [|fuel IH]; intros r; [apply keeps_timeout|].
  cbn [Copy]. apply keeps_bind; [apply keeps_deref|].
  intros c. destruct c; repeat keeps_step.
  destruct Else; repeat keeps_step.
Qed.

End StoreFrame.

Section StoreFresh.
Context `{GoFloat}.
Import Store StoreSpec.

Lemma returns_ref_ret (n : ref) : returns_ref n (ret n).
Proof. intros h r' h' [= <- <-]. auto. Qed.

Lemma returns_ref_bind {A : Type} (n : ref) (m : M A) (k : A -> M ref) :
  keeps 0 m -> (forall a, returns_ref n (k a)) -> returns_ref n (bind m k).
Proof.
  intros Hm Hk h r' h' Hrun.
  apply bind_inv in Hrun as (a & h1 & Hm1 & Hk1).
  destruct (Hm h a h1 ltac:(lia) Hm1) as [_ Hl1].
  destruct (Hk a h1 r' h' Hk1) as [-> Hl2]. split; [reflexivity | lia].
Qed.

Lemma fresh_new (c : cell) : fresh (new c).
Proof.
  intros h r' h' [= <- <-]. rewrite length_app. cbn. lia.
Qed.

Lemma fresh_bind_new (c : cell) (k : ref -> M ref) :
  (forall n, returns_ref n (k n)) -> fresh (bind (new c) k).
Proof.
  intros Hk h r' h' Hrun. unfold bind, new in Hrun.
  destruct (Hk (length h) (h ++ [c]) r' h' Hrun) as [-> Hl].
  rewrite length_app in Hl. cbn in Hl. lia.
Qed.

Lemma fresh_bind {A : Type} (m : M A) (k : A -> M ref) :
  keeps 0 m -> (forall a, fresh (k a)) -> fresh (bind m k).
Proof.
  intros Hm Hk h r' h' Hrun.
  apply bind_inv in Hrun as (a & h1 & Hm1 & Hk1).
  destruct (Hm h a h1 ltac:(lia) Hm1) as [_ Hl1].
  pose proof (Hk a h1 r' h' Hk1). lia.
Qed.

Ltac grows_step :=
  first
    [ apply keeps_ret | apply keeps_panic | apply keeps_new
    | apply keeps_Position_of | apply keeps_deref
    | apply keeps_update; lia
    | apply keeps_callCopy; intros ?; apply keeps_Copy
    | apply keeps_appendCopies; [intros ?; apply keeps_Copy | lia]
    | apply keeps_appendElemCopies; [intros ?; apply keeps_Copy | lia]
    | apply keeps_Copy
    | apply keeps_bind; [|intros ?] ].

Ltac fresh_step :=
  first
    [ apply fresh_new
    | apply returns_ref_ret
    | apply fresh_bind_new; intros ?
    | apply returns_ref_bind; [repeat grows_step | intros ?]
    | apply fresh_bind; [repeat grows_step | intros ?] ].

(** [Copy] returns the address of a struct it allocated. *)
Lemma fresh_Copy (fuel : nat) (r : ref) : fresh (Copy fuel r).
Proof.
  destruct fuel as [|fuel]; [intros h r' h' [=]|].
  cbn [Copy]. apply fresh_bind; [apply keeps_deref|].
  intros c. destruct c; repeat fresh_step.
  destruct Else; repeat grows_step.
Qed.

(** X17: [Copy] returns a node that did not exist before and changes no node
    that did: the heap it leaves starts with the heap it was given. *)
Theorem Copy_leaves_heap (fuel : nat) (r r' : ref) (h h' : heap) :
  Copy fuel r h = Some (Ok (r', h')) ->
  (length h <= r' < length h')%nat /\
  take (length h) h' = h /\
  forall a c, h !! a = Some c -> h' !! a = Some c.
Proof.
  intros Hcopy.
  pose proof (fresh_Copy fuel r h r' h' Hcopy) as Hfresh.
  destruct (keeps_Copy fuel (length h) r h r' h' ltac:(lia) Hcopy)
    as [Htake _].
  unfold heap in *. rewrite firstn_all in Htake.
  split; [assumption|]. split; [assumption|].
  intros a c Ha. rewrite <- Htake in Ha.
  rewrite lookup_take_Some in Ha. tauto.
Qed.

End StoreFresh.

Section StoreWitnesses.
Import Store.

Lemma Copy_leaves_heap_witness :
  (length (@ifHeap noFloat) <= fst (copied 3 3 ifHeap)
     < length (snd (copied 3 3 ifHeap)))%nat /\
  take (length (@ifHeap noFloat)) (snd (copied 3 3 ifHeap)) = ifHeap /\
  forall a c,
    @ifHeap noFloat !! a = Some c -> snd (copied 3 3 ifHeap) !! a = Some c.
Proof.
  apply (@Copy_leaves_heap noFloat 3 3 (fst (copied 3 3 ifHeap)) ifHeap
           (snd (copied 3 3 ifHeap))).
  vm_compute. reflexivity.
Defined.

End StoreWitnesses.
